(** * audit-pod-connectivity: a shallow embedding of
      [scripts/audit-pod-connectivity.py] and the properties of its
      scanner, extractor, aggregator and reporter.

    Conventions of the embedding.
    - A Python [str] is a list of characters; a character is an 8-bit code
      point (U+0000 to U+00FF), so the whitespace, line-break and digit
      tables below are the restrictions of Python's Unicode tables to that
      range.
    - A Python [int] is a [nat] where the code only counts, a [Z] where the
      value comes from the command line.
    - A [dict] (and a [defaultdict(int)]) is an association list in insertion
      order with distinct keys, because the report depends on that order.
    - The outside world (the [kubectl] processes and [json.loads]) is a
      record of functions handed to every operation that calls out.
    - A run starts from the parsed command line ([args]); every process
      ends, its output is text already; an exception that nobody catches
      ends the run with status 1, its traceback is left out.
    - The script from its command line, on a host where [argparse] can
      reject the command line and [subprocess.run] can fail, comes after the
      reference notions ([script], [run_script]). *)

From Stdlib Require Import Ascii String DecimalString.
From Stdlib Require Import ZArith Lia Bool Arith PeanoNat.
From Stdlib Require Import List Permutation Sorted.
Import ListNotations.

Close Scope string_scope.
Open Scope list_scope.

Set Implicit Arguments.

(* ================================================================= *)
(** ** Strings *)

Module Str.

Definition str := list ascii.

(** A literal: [s "dial tcp"]. *)
Definition s (x : string) : str := list_ascii_of_string x.
Arguments s x%_string.

Definition code (c : ascii) : nat := nat_of_ascii c.

Definition chr (n : nat) : ascii := ascii_of_nat n.

Definition NL : ascii := chr 10.
Definition CR : ascii := chr 13.
Definition DQUOTE : ascii := chr 34.
Definition BACKSLASH : ascii := chr 92.

Fixpoint str_eqb (a b : str) : bool :=
  match a, b with
  | [], [] => true
  | x :: a', y :: b' => Ascii.eqb x y && str_eqb a' b'
  | _, _ => false
  end.

(** [a < b] on strings: code points compared left to right, a proper prefix
    is smaller. *)
Fixpoint str_ltb (a b : str) : bool :=
  match a, b with
  | _, [] => false
  | [], _ :: _ => true
  | x :: a', y :: b' =>
      if code x <? code y then true
      else if code y <? code x then false
      else str_ltb a' b'
  end.

Definition str_leb (a b : str) : bool := negb (str_ltb b a).

(** [str.isspace] on one character. *)
Definition isspace (c : ascii) : bool :=
  let n := code c in
  ((9 <=? n) && (n <=? 13)) || ((28 <=? n) && (n <=? 32))
  || (n =? 133) || (n =? 160).

(** The characters [str.splitlines] breaks at. *)
Definition islinebreak (c : ascii) : bool :=
  let n := code c in
  ((10 <=? n) && (n <=? 13)) || ((28 <=? n) && (n <=? 30)) || (n =? 133).

(** Decimal digits (the regular expression class backslash-d). *)
Definition isdigit (c : ascii) : bool :=
  let n := code c in (48 <=? n) && (n <=? 57).

Definition isupper (c : ascii) : bool :=
  let n := code c in
  ((65 <=? n) && (n <=? 90))
  || ((192 <=? n) && (n <=? 222) && negb (n =? 215)).

Definition islower (c : ascii) : bool :=
  let n := code c in
  ((97 <=? n) && (n <=? 122))
  || ((224 <=? n) && (n <=? 254) && negb (n =? 247)).

Definition lower (c : ascii) : ascii :=
  if isupper c then chr (code c + 32) else c.

Definition upper (c : ascii) : ascii :=
  if islower c then chr (code c - 32) else c.

Fixpoint dropwhile (p : ascii -> bool) (l : str) : str :=
  match l with
  | [] => []
  | c :: l' => if p c then dropwhile p l' else l
  end.

Definition lstrip (l : str) : str := dropwhile isspace l.
Definition rstrip (l : str) : str := rev (dropwhile isspace (rev l)).

(** [line.strip()] *)
Definition strip (l : str) : str := rstrip (lstrip l).

(** [text.splitlines()]: [cur] is the line being read, reversed.  A carriage
    return followed by a line feed is one break; the breaks are dropped; a
    final line without a break is kept, an empty one is not. *)
Fixpoint splitlines_from (cur : str) (text : str) : list str :=
  match text with
  | [] => match cur with [] => [] | _ => [rev cur] end
  | c :: rest =>
      if Ascii.eqb c CR then
        match rest with
        | d :: rest' =>
            if Ascii.eqb d NL then rev cur :: splitlines_from [] rest'
            else rev cur :: splitlines_from [] rest
        | [] => rev cur :: splitlines_from [] rest
        end
      else if islinebreak c then rev cur :: splitlines_from [] rest
      else splitlines_from (c :: cur) rest
  end.

Definition splitlines (text : str) : list str := splitlines_from [] text.

(** [str(n)] for a count, [str(z)] for an integer. *)
Definition str_of_nat (n : nat) : str :=
  s (NilZero.string_of_uint (Nat.to_uint n)).

Definition str_of_Z (z : Z) : str :=
  s (NilZero.string_of_int (Z.to_int z)).

(** [format(x, "45s")]: pad on the right up to the width, never cut. *)
Definition ljust (w : nat) (x : str) : str :=
  x ++ repeat " "%char (w - length x).

(** [format(x, ">5")]: pad on the left up to the width, never cut. *)
Definition rjust (w : nat) (x : str) : str :=
  repeat " "%char (w - length x) ++ x.

End Str.

Import Str.

(* ================================================================= *)
(** ** Regular expressions

    The fragment of Python's [re] the script uses: literals, the dot,
    bracketed classes, greedy star, plus and question mark, alternation,
    non-capturing grouping and one capturing group.  Every star and plus in
    the script's patterns is applied to a single-character item, which is
    what [Star] and [Plus] take.  Matching is by backtracking with the
    priorities of [re]: the left alternative first, the longest repetition
    first, the leftmost start first. *)

Module Re.

Inductive citem : Type :=
| CChar (c : ascii)            (* a character *)
| CRange (lo hi : ascii)       (* lo-hi *)
| CSpace                       (* backslash-s *)
| CDigit.                      (* backslash-d *)

Inductive atom : Type :=
| Dot                          (* any character but the line feed *)
| Lit (c : ascii)
| In_ (items : list citem)     (* [items] *)
| NotIn (items : list citem).  (* [^items] *)

Inductive regex : Type :=
| Eps
| Atom (a : atom)
| Seq (r1 r2 : regex)
| Alt (r1 r2 : regex)
| Star (a : atom)
| Plus (a : atom)
| Opt (r : regex)
| Group (r : regex).

(** A compiled pattern: the expression and the [re.IGNORECASE] flag. *)
Record pattern : Type := Pattern { rx : regex; ignorecase : bool }.

Definition in_range (lo hi c : ascii) : bool :=
  (code lo <=? code c) && (code c <=? code hi).

Definition lit_match (ic : bool) (c ch : ascii) : bool :=
  if ic then Ascii.eqb (lower ch) (lower c) else Ascii.eqb ch c.

Definition citem_match (ic : bool) (ch : ascii) (i : citem) : bool :=
  match i with
  | CChar c => lit_match ic c ch
  | CRange lo hi =>
      in_range lo hi ch
      || (ic && (in_range lo hi (lower ch) || in_range lo hi (upper ch)))
  | CSpace => isspace ch
  | CDigit => isdigit ch
  end.

Definition atom_match (ic : bool) (a : atom) (ch : ascii) : bool :=
  match a with
  | Dot => negb (Ascii.eqb ch NL)
  | Lit c => lit_match ic c ch
  | In_ items => existsb (citem_match ic ch) items
  | NotIn items => negb (existsb (citem_match ic ch) items)
  end.

Section Matcher.
Variable R : Type.
Variable ic : bool.

(** Greedy repetition of one item: take as many characters as match, give
    them back one at a time while the rest of the pattern fails. *)
Fixpoint star (a : atom) (l : str) (k : str -> option R) : option R :=
  match l with
  | ch :: l' =>
      if atom_match ic a ch then
        match star a l' k with
        | Some r => Some r
        | None => k l
        end
      else k l
  | [] => k []
  end.

(** [rmatch r l cap k]: match [r] at the head of [l]; [cap] is the text of
    group 1 so far; [k] is the rest of the pattern, given what is left of
    the input and the group. *)
Fixpoint rmatch (r : regex) (l : str) (cap : option str)
    (k : str -> option str -> option R) : option R :=
  match r with
  | Eps => k l cap
  | Atom a =>
      match l with
      | ch :: l' => if atom_match ic a ch then k l' cap else None
      | [] => None
      end
  | Seq r1 r2 => rmatch r1 l cap (fun l1 c1 => rmatch r2 l1 c1 k)
  | Alt r1 r2 =>
      match rmatch r1 l cap k with
      | Some x => Some x
      | None => rmatch r2 l cap k
      end
  | Star a => star a l (fun l' => k l' cap)
  | Plus a =>
      match l with
      | ch :: l' =>
          if atom_match ic a ch then star a l' (fun l'' => k l'' cap)
          else None
      | [] => None
      end
  | Opt r1 =>
      match rmatch r1 l cap k with
      | Some x => Some x
      | None => k l cap
      end
  | Group r1 =>
      rmatch r1 l cap
        (fun l1 _ => k l1 (Some (firstn (length l - length l1) l)))
  end.
End Matcher.

(** A match object, reduced to what the script reads from it: [group(1)],
    which is [None] when the group took no part in the match. *)
Definition match_object := option str.

Definition match_here (p : pattern) (l : str) : option match_object :=
  rmatch (ignorecase p) (rx p) l None (fun _ cap => Some cap).

(** [p.search(l)]: the match at the leftmost start that has one. *)
Fixpoint search (p : pattern) (l : str) : option match_object :=
  match match_here p l with
  | Some m => Some m
  | None =>
      match l with
      | [] => None
      | _ :: l' => search p l'
      end
  end.

(** The truth value of [p.search(l)]. *)
Definition found (p : pattern) (l : str) : bool :=
  match search p l with Some _ => true | None => false end.

(** A run of literal characters. *)
Definition lits (x : string) : regex :=
  fold_right (fun c r => Seq (Atom (Lit c)) r) Eps (list_ascii_of_string x).
Arguments lits x%_string.

Definition seqs (rs : list regex) : regex := fold_right Seq Eps rs.

Fixpoint alts (rs : list regex) : regex :=
  match rs with
  | [] => Eps
  | [r] => r
  | r :: rs' => Alt r (alts rs')
  end.

End Re.

Import Re.

(* ================================================================= *)
(** ** Dictionaries

    A [dict] keyed by strings, as the list of its items in insertion order.
    Assigning to a key that is present keeps its place; a new key goes to the
    end. *)

Module Dict.

Definition dict (V : Type) := list (str * V).

Section Ops.
Variable V : Type.

(** [d.get(k)] *)
Fixpoint get (k : str) (d : dict V) : option V :=
  match d with
  | [] => None
  | (k', v) :: d' => if str_eqb k k' then Some v else get k d'
  end.

(** [d[k] = v] *)
Fixpoint set (k : str) (v : V) (d : dict V) : dict V :=
  match d with
  | [] => [(k, v)]
  | (k', v') :: d' =>
      if str_eqb k k' then (k', v) :: d' else (k', v') :: set k v d'
  end.

Definition keys (d : dict V) : list str := map fst d.
End Ops.

(** [d[k] += n] on a [defaultdict(int)]: a missing key starts from 0. *)
Fixpoint add (k : str) (n : nat) (d : dict nat) : dict nat :=
  match d with
  | [] => [(k, n)]
  | (k', v) :: d' =>
      if str_eqb k k' then (k', v + n) :: d' else (k', v) :: add k n d'
  end.

(** [d[k]] on a [defaultdict(int)], read without inserting. *)
Definition count (k : str) (d : dict nat) : nat :=
  match get k d with Some n => n | None => 0 end.

End Dict.

Import Dict.

(* ================================================================= *)
(** ** The script: patterns, scanner, extractor *)

(** [ERROR_PATTERNS], in the order of the source; all six are compiled with
    [re.IGNORECASE]. *)
Definition ERROR_PATTERNS : list pattern :=
  [ (* dial tcp [^:]+:\d+:.*(?:i/o timeout|connection refused
                               |operation was canceled) *)
    Pattern
      (seqs [ lits "dial tcp "; Plus (NotIn [CChar ":"%char]); lits ":";
              Plus (In_ [CDigit]); lits ":"; Star Dot;
              alts [ lits "i/o timeout"; lits "connection refused";
                     lits "operation was canceled" ] ])
      true;
    (* connection error.*dial tcp *)
    Pattern (seqs [ lits "connection error"; Star Dot; lits "dial tcp" ]) true;
    (* (?:NXDOMAIN|no such host) *)
    Pattern (alts [ lits "NXDOMAIN"; lits "no such host" ]) true;
    (* connect(?:ion)? (?:timed out|refused) *)
    Pattern
      (seqs [ lits "connect"; Opt (lits "ion"); lits " ";
              alts [ lits "timed out"; lits "refused" ] ])
      true;
    (* upstream connect error|503 Service Unavailable *)
    Pattern
      (alts [ lits "upstream connect error"; lits "503 Service Unavailable" ])
      true;
    (* failed to connect to *)
    Pattern (lits "failed to connect to") true ].

(** [scan_logs]: the inner loop over the patterns, leaving at the first one
    that is found; [None] when the loop ends without a [break]. *)
Fixpoint scan_line (patterns : list pattern) (line : str) : option str :=
  match patterns with
  | [] => None
  | p :: rest =>
      match search p line with
      | Some _ => Some (strip line)
      | None => scan_line rest line
      end
  end.

(** The outer loop, over the lines, appending to [hits]. *)
Fixpoint scan_lines (lines : list str) (hits : list str) : list str :=
  match lines with
  | [] => hits
  | line :: rest =>
      match scan_line ERROR_PATTERNS line with
      | Some h => scan_lines rest (hits ++ [h])
      | None => scan_lines rest hits
      end
  end.

Definition scan_logs (log_text : str) : list str :=
  scan_lines (splitlines log_text) [].

(** The two extraction patterns of [extract_endpoints], compiled without
    flags.  In [host_re] the third alternative ends with an optional
    backslash and an optional double quote. *)

(* dial tcp ([^\s:]+:\d+) *)
Definition ep_re : pattern :=
  Pattern
    (seqs [ lits "dial tcp ";
            Group (seqs [ Plus (NotIn [CSpace; CChar ":"%char]); lits ":";
                          Plus (In_ [CDigit]) ]) ])
    false.

(* (?:connect to|connecting to|Addr:\s*\\?QUOTE?)([a-zA-Z0-9._-]+:\d+) *)
Definition host_re : pattern :=
  Pattern
    (seqs [ alts [ lits "connect to"; lits "connecting to";
                   seqs [ lits "Addr:"; Star (In_ [CSpace]);
                          Opt (Atom (Lit BACKSLASH));
                          Opt (Atom (Lit DQUOTE)) ] ];
            Group (seqs [ Plus (In_ [ CRange "a"%char "z"%char;
                                      CRange "A"%char "Z"%char;
                                      CRange "0"%char "9"%char;
                                      CChar "."%char; CChar "_"%char;
                                      CChar "-"%char ]);
                          lits ":"; Plus (In_ [CDigit]) ]) ])
    false.

(** The inner loop of [extract_endpoints] over [[ep_re, host_re]]: the first
    pattern found counts its group 1 and leaves the loop.  In both patterns
    the group is part of every match (lemmas [ep_re_group] and
    [host_re_group]), so the branch for a match without it is never taken. *)
Fixpoint extract_line (regexes : list pattern) (line : str)
    (endpoints : dict nat) : dict nat :=
  match regexes with
  | [] => endpoints
  | regex :: rest =>
      match search regex line with
      | Some (Some g) => Dict.add g 1 endpoints
      | Some None => endpoints
      | None => extract_line rest line endpoints
      end
  end.

Fixpoint extract_lines (hits : list str) (endpoints : dict nat) : dict nat :=
  match hits with
  | [] => endpoints
  | line :: rest =>
      extract_lines rest (extract_line [ep_re; host_re] line endpoints)
  end.

Definition extract_endpoints (hits : list str) : dict nat :=
  extract_lines hits [].

(* ================================================================= *)
(** ** The outside world: JSON values, processes, exceptions *)

(** What [json.loads] returns.  A number keeps only an integer: the script
    applies to a number only operations that fail on every number. *)
#[warnings="-register-all"]
Inductive json : Type :=
| JNull
| JBool (b : bool)
| JNumber (z : Z)
| JStr (x : str)
| JArr (l : list json)
| JObj (o : list (str * json)).

Inductive exn : Type :=
| SystemExit (status : Z)
| TimeoutExpired
| JSONDecodeError
| KeyError
| TypeError
| AttributeError
| ValueError
| UnicodeDecodeError
| OSError.

(** An operation that returns a value or raises. *)
Inductive result (A : Type) : Type :=
| Returns (a : A)
| Raises (e : exn).

Arguments Returns {A} a.
Arguments Raises {A} e.

(** A finished [kubectl] process: what [subprocess.run] captures, and the
    time it took, in the unit of the [timeout] argument. *)
Record process : Type := Process {
  returncode : Z;
  stdout : str;
  stderr : str;
  elapsed : nat
}.

(** The world of one run: the process a command line gives, and the JSON
    decoder ([None] stands for [JSONDecodeError]).  Every process ends; the
    output is already text; the limits of the operating system on arguments
    are left out. *)
Record world : Type := World {
  run_process : list str -> process;
  json_loads : str -> option json
}.

(** Key lookup in a JSON object, the last of equal keys having won when the
    object was built. *)
Fixpoint lookup (k : str) (o : list (str * json)) : option json :=
  match o with
  | [] => None
  | (k', v) :: o' => if str_eqb k k' then Some v else lookup k o'
  end.

(** [j[k]] with a string key. *)
Definition getitem (j : json) (k : str) : result json :=
  match j with
  | JObj o =>
      match lookup k o with
      | Some v => Returns v
      | None => Raises KeyError
      end
  | _ => Raises TypeError
  end.

(** [j.get(k, default)] *)
Definition get_method (j : json) (k : str) (default : json) : result json :=
  match j with
  | JObj o =>
      match lookup k o with
      | Some v => Returns v
      | None => Returns default
      end
  | _ => Raises AttributeError
  end.

(** [len(j)] *)
Definition py_len (j : json) : result nat :=
  match j with
  | JArr l => Returns (length l)
  | JObj o => Returns (length o)
  | JStr x => Returns (length x)
  | _ => Raises TypeError
  end.

(** The values [for x in j] goes through: the elements of a list, the keys
    of a dict, the characters of a string. *)
Definition py_iter (j : json) : result (list json) :=
  match j with
  | JArr l => Returns l
  | JObj o => Returns (map (fun kv => JStr (fst kv)) o)
  | JStr x => Returns (map (fun c => JStr [c]) x)
  | _ => Raises TypeError
  end.

(** A command-line argument must be a string. *)
Fixpoint cmd_args (cmd : list json) : result (list str) :=
  match cmd with
  | [] => Returns []
  | JStr x :: rest =>
      match cmd_args rest with
      | Returns xs => Returns (x :: xs)
      | Raises e => Raises e
      end
  | _ :: _ => Raises TypeError
  end.

(** [subprocess.run(cmd, capture_output=True, text=True, timeout=t)] *)
Definition subprocess_run (w : world) (cmd : list json) (timeout : option nat)
    : result process :=
  match cmd_args cmd with
  | Raises e => Raises e
  | Returns argv =>
      let p := run_process w argv in
      match timeout with
      | Some t => if t <? elapsed p then Raises TimeoutExpired else Returns p
      | None => Returns p
      end
  end.

(** The text an f-string puts for a value.  The script formats values from
    the pod list only after [subprocess.run] took them as arguments, so they
    are strings (lemma [get_logs_strings]). *)
Definition text_of (j : json) : str :=
  match j with
  | JStr x => x
  | _ => []
  end.

(* ================================================================= *)
(** ** Output and control: a state and error monad

    The state is what has been printed: one entry per [print] call, on
    standard output and on standard error.  A computation ends with a value
    or with an exception. *)

Record io : Type := IO { out : list str; err : list str }.

Inductive res (A : Type) : Type :=
| Ok (a : A) (o : io)
| Raise (e : exn) (o : io).

Arguments Ok {A} a o.
Arguments Raise {A} e o.

Definition M (A : Type) : Type := io -> res A.

Definition ret {A} (a : A) : M A := fun o => Ok a o.

Definition bind {A B} (m : M A) (f : A -> M B) : M B :=
  fun o =>
    match m o with
    | Ok a o' => f a o'
    | Raise e o' => Raise e o'
    end.

Definition raise {A} (e : exn) : M A := fun o => Raise e o.

(** An operation that only returns or raises. *)
Definition lift {A} (r : result A) : M A :=
  match r with
  | Returns a => ret a
  | Raises e => raise e
  end.

(** [print(x)] and [print(x, file=sys.stderr)] *)
Definition print (x : str) : M unit :=
  fun o => Ok tt (IO (out o ++ [x]) (err o)).

Definition print_err (x : str) : M unit :=
  fun o => Ok tt (IO (out o) (err o ++ [x])).

Declare Scope monad_scope.
Delimit Scope monad_scope with monad.
Notation "x <- m ;; f" := (bind m (fun x => f))
  (at level 61, m at next level, right associativity) : monad_scope.
Notation "m ;;; f" := (bind m (fun _ => f))
  (at level 61, right associativity) : monad_scope.
Open Scope monad_scope.

Fixpoint print_all (xs : list str) : M unit :=
  match xs with
  | [] => ret tt
  | x :: rest => print x ;;; print_all rest
  end.

(* ================================================================= *)
(** ** Enumerator and fetcher *)

(** The parsed command line: [args.namespace] is [None] without the flag. *)
Record arguments : Type := Args {
  namespace : option str;
  since : str;
  tail : Z
}.

(** The truth value of [namespace]: [None] and the empty string are false. *)
Definition truthy (namespace : option str) : option str :=
  match namespace with
  | Some (c :: x) => Some (c :: x)
  | _ => None
  end.

Definition get_pods_cmd (namespace : option str) : list json :=
  map JStr [s "kubectl"; s "get"; s "pods"; s "-o"; s "json"]
  ++ match truthy namespace with
     | Some ns => [JStr (s "-n"); JStr ns]
     | None => [JStr (s "--all-namespaces")]
     end.

Definition get_pods (w : world) (namespace : option str) : M json :=
  result <- lift (subprocess_run w (get_pods_cmd namespace) None) ;;
  if negb (returncode result =? 0)%Z then
    print_err (s "ERROR: kubectl get pods failed: " ++ stderr result) ;;;
    raise (SystemExit 1)
  else
    match json_loads w (stdout result) with
    | None => raise JSONDecodeError
    | Some j => lift (getitem j (s "items"))
    end.

Definition get_logs_cmd (pod_name namespace container : json)
    (since : str) (tail : Z) : list json :=
  [ JStr (s "kubectl"); JStr (s "logs"); pod_name;
    JStr (s "-n"); namespace;
    JStr (s "-c"); container;
    JStr (s "--since=" ++ since);
    JStr (s "--tail=" ++ str_of_Z tail) ].

Definition get_logs (w : world) (pod_name namespace container : json)
    (since : str) (tail : Z) : result str :=
  match
    subprocess_run w (get_logs_cmd pod_name namespace container since tail)
      (Some 30)
  with
  | Returns result => Returns (stdout result)
  | Raises e => Raises e
  end.

(* ================================================================= *)
(** ** Aggregator and reporter: [main] *)

(** The two local tables of [main]: [findings] and [all_endpoints]. *)
Definition tables : Type := (dict (list str) * dict nat)%type.

(** The loop [for ep, count in extract_endpoints(hits).items():
    all_endpoints[ep] += count]. *)
Fixpoint merge_items (items : list (str * nat)) (all_endpoints : dict nat)
    : dict nat :=
  match items with
  | [] => all_endpoints
  | (ep, count) :: rest => merge_items rest (Dict.add ep count all_endpoints)
  end.

Definition container_key (ns pod_name container : json) : str :=
  text_of ns ++ s "/" ++ text_of pod_name ++ s "/" ++ text_of container.

(** What [main] does with the hits of one container ([if hits:]). *)
Definition record_hits (key : str) (hits : list str) (t : tables) : tables :=
  match hits with
  | [] => t
  | _ :: _ =>
      (Dict.set key hits (fst t),
       merge_items (extract_endpoints hits) (snd t))
  end.

(** The body of [for container in containers]. *)
Definition scan_container (w : world) (a : arguments)
    (pod_name ns container : json) (t : tables) : M tables :=
  match get_logs w pod_name ns container (since a) (tail a) with
  | Raises TimeoutExpired =>
      print_err (s "  WARN: timeout reading logs from "
                 ++ container_key ns pod_name container) ;;;
      ret t
  | Raises e => raise e
  | Returns logs =>
      let hits := scan_logs logs in
      ret (record_hits (container_key ns pod_name container) hits t)
  end.

Fixpoint scan_containers (w : world) (a : arguments) (pod_name ns : json)
    (containers : list json) (t : tables) : M tables :=
  match containers with
  | [] => ret t
  | container :: rest =>
      t' <- scan_container w a pod_name ns container t ;;
      scan_containers w a pod_name ns rest t'
  end.

(** [[c["name"] for c in cs]] *)
Fixpoint names_of (cs : list json) : result (list json) :=
  match cs with
  | [] => Returns []
  | c :: rest =>
      match getitem c (s "name") with
      | Raises e => Raises e
      | Returns n =>
          match names_of rest with
          | Raises e => Raises e
          | Returns ns => Returns (n :: ns)
          end
      end
  end.

(** [[c["name"] for c in pod.get("spec", {}).get("containers", [])]] *)
Definition container_names (pod : json) : result (list json) :=
  match get_method pod (s "spec") (JObj []) with
  | Raises e => Raises e
  | Returns spec =>
      match get_method spec (s "containers") (JArr []) with
      | Raises e => Raises e
      | Returns cs =>
          match py_iter cs with
          | Raises e => Raises e
          | Returns l => names_of l
          end
      end
  end.

(** [pod["metadata"][field]] *)
Definition metadata (pod : json) (field : str) : result json :=
  match getitem pod (s "metadata") with
  | Raises e => Raises e
  | Returns m => getitem m field
  end.

(** The body of [for pod in pods]. *)
Definition scan_pod (w : world) (a : arguments) (pod : json) (t : tables)
    : M tables :=
  pod_name <- lift (metadata pod (s "name")) ;;
  ns <- lift (metadata pod (s "namespace")) ;;
  containers <- lift (container_names pod) ;;
  scan_containers w a pod_name ns containers t.

Fixpoint scan_pods (w : world) (a : arguments) (pods : list json)
    (t : tables) : M tables :=
  match pods with
  | [] => ret t
  | pod :: rest =>
      t' <- scan_pod w a pod t ;;
      scan_pods w a rest t'
  end.

(** [sorted(l, key=...)]: a stable sort, [le x y] saying that the key of [x]
    is at most the key of [y]. *)
Section Sorted.
Variable A : Type.
Variable le : A -> A -> bool.

Fixpoint insert (x : A) (l : list A) : list A :=
  match l with
  | [] => [x]
  | y :: l' => if le x y then x :: l else y :: insert x l'
  end.

Definition sorted (l : list A) : list A := fold_right insert [] l.
End Sorted.

(** [key=lambda x: -x[1]] *)
Definition by_neg_count (x y : str * nat) : bool := snd y <=? snd x.

(** The order of [sorted(findings.items())]: the keys of a dict are distinct,
    so the comparison of two items is decided by their keys. *)
Definition by_key (x y : str * list str) : bool := str_leb (fst x) (fst y).

Definition rule : str := repeat "="%char 70.

Definition summary_line (item : str * nat) : str :=
  s "  " ++ ljust 45 (fst item) ++ s " "
  ++ rjust 5 (str_of_nat (snd item)) ++ s " hits".

(** The loop [for h in hits: line_counts[h] += 1]. *)
Fixpoint count_lines (hits : list str) (line_counts : dict nat) : dict nat :=
  match hits with
  | [] => line_counts
  | h :: rest => count_lines rest (Dict.add h 1 line_counts)
  end.

(** [line[:117] + "..."] when [len(line) > 120]. *)
Definition truncate (line : str) : str :=
  if 120 <? length line then firstn 117 line ++ s "..." else line.

Definition detail_line (item : str * nat) : str :=
  let prefix :=
    if 1 <? snd item then s "    [" ++ str_of_nat (snd item) ++ s "x] "
    else s "    " in
  prefix ++ truncate (fst item).

Definition more_line (n : nat) : str :=
  s "    ... and " ++ str_of_nat n ++ s " more unique error lines".

(** What the body of [for key, hits in sorted(findings.items())] prints. *)
Definition detail_block (item : str * list str) : list str :=
  let line_counts := count_lines (snd item) [] in
  [ [NL] ++ s "  " ++ fst item ++ s ":" ]
  ++ map detail_line (firstn 5 (sorted by_neg_count line_counts))
  ++ (if 5 <? length line_counts
      then [ more_line (length line_counts - 5) ]
      else []).

(** Everything [main] prints after the scan when there are findings. *)
Definition report (t : tables) : list str :=
  [ rule; s "FAILING ENDPOINTS (aggregated)"; rule ]
  ++ map summary_line (sorted by_neg_count (snd t))
  ++ [ [NL] ++ rule;
       s "AFFECTED PODS (" ++ str_of_nat (length (fst t)) ++ s " containers)";
       rule ]
  ++ flat_map detail_block (sorted by_key (fst t)).

Definition scanning_line (n : nat) (a : arguments) : str :=
  s "Scanning " ++ str_of_nat n ++ s " pods (since=" ++ since a
  ++ s ", tail=" ++ str_of_Z (tail a) ++ s ")..." ++ [NL].

(** Lines 86 to 109: the pod list, the header, the scan. *)
Definition collect (w : world) (a : arguments) : M tables :=
  pods <- get_pods w (namespace a) ;;
  n <- lift (py_len pods) ;;
  print (scanning_line n a) ;;;
  items <- lift (py_iter pods) ;;
  scan_pods w a items ([], []).

(** Lines 111 to 139. *)
Definition render (t : tables) : M unit :=
  match fst t with
  | [] => print (s "No connectivity errors found.")
  | _ :: _ => print_all (report t)
  end.

Definition main (w : world) (a : arguments) : M unit :=
  t <- collect w a ;;
  render t.

(** One run of the program: what it wrote and its exit status.  An exception
    that reaches the top ends the process with status 1, [sys.exit(n)] with
    [n]; the traceback is not part of the model. *)
Record outcome : Type := Outcome {
  stdout_text : str;
  warnings : list str;
  status : Z
}.

Definition text (prints : list str) : str :=
  flat_map (fun x => x ++ [NL]) prints.

Definition exit_status {A} (r : res A) : Z :=
  match r with
  | Ok _ _ => 0
  | Raise (SystemExit n) _ => n
  | Raise _ _ => 1
  end.

Definition printed {A} (r : res A) : io :=
  match r with
  | Ok _ o => o
  | Raise _ o => o
  end.

Definition run (w : world) (a : arguments) : outcome :=
  let r := main w a (IO [] []) in
  Outcome (text (out (printed r))) (err (printed r)) (exit_status r).

(* ================================================================= *)
(** ** Reference notions the properties are stated with *)

(** A line is a hit when some pattern of [ERROR_PATTERNS] is found in it. *)
Definition is_hit (line : str) : bool :=
  existsb (fun p => found p line) ERROR_PATTERNS.


(** What it means for a text to match an expression, apart from any
    matching procedure: the language of the expression. *)
Inductive lang (ic : bool) : regex -> str -> Prop :=
| lang_eps : lang ic Eps []
| lang_atom (a : atom) (ch : ascii) :
    atom_match ic a ch = true -> lang ic (Atom a) [ch]
| lang_seq (r1 r2 : regex) (u v : str) :
    lang ic r1 u -> lang ic r2 v -> lang ic (Seq r1 r2) (u ++ v)
| lang_alt_l (r1 r2 : regex) (u : str) :
    lang ic r1 u -> lang ic (Alt r1 r2) u
| lang_alt_r (r1 r2 : regex) (u : str) :
    lang ic r2 u -> lang ic (Alt r1 r2) u
| lang_star (a : atom) (u : str) :
    Forall (fun ch => atom_match ic a ch = true) u -> lang ic (Star a) u
| lang_plus (a : atom) (ch : ascii) (u : str) :
    Forall (fun ch => atom_match ic a ch = true) (ch :: u) ->
    lang ic (Plus a) (ch :: u)
| lang_opt_none (r : regex) : lang ic (Opt r) []
| lang_opt_some (r : regex) (u : str) : lang ic r u -> lang ic (Opt r) u
| lang_group (r : regex) (u : str) : lang ic r u -> lang ic (Group r) u.

(** The pattern matches somewhere in the line. *)
Definition occurs_in (p : pattern) (line : str) : Prop :=
  exists before u after,
    line = before ++ u ++ after /\ lang (ignorecase p) (rx p) u.

(** The pod list as the data model of the specification has it: a pod is a
    name, a namespace and container names.  [read_pod] reads one entry of
    the list the way [main] does; it gives [None] when a field [main] reads
    is missing or of the wrong kind, or when a name that goes on a [kubectl]
    command line is not a string (a pod without containers never has its
    names put on one). *)
Record PodRef : Type := Pod {
  pod_name : str;
  pod_namespace : str;
  pod_containers : list str
}.

Definition is_str (j : json) : bool :=
  match j with
  | JStr _ => true
  | _ => false
  end.

Definition read_pod (pod : json) : option PodRef :=
  match metadata pod (s "name"), metadata pod (s "namespace"),
        container_names pod with
  | Returns n, Returns ns, Returns cs =>
      match cs with
      | [] => Some (Pod (text_of n) (text_of ns) [])
      | _ :: _ =>
          if is_str n && is_str ns && forallb is_str cs
          then Some (Pod (text_of n) (text_of ns) (map text_of cs))
          else None
      end
  | _, _, _ => None
  end.

Fixpoint read_pods (pods : list json) : option (list PodRef) :=
  match pods with
  | [] => Some []
  | pod :: rest =>
      match read_pod pod, read_pods rest with
      | Some p, Some ps => Some (p :: ps)
      | _, _ => None
      end
  end.

(** The decoded output of the pod list command, read as a list of pods. *)
Definition read_listing (j : json) : option (list PodRef) :=
  match getitem j (s "items") with
  | Returns items =>
      match py_iter items with
      | Returns pods => read_pods pods
      | Raises _ => None
      end
  | Raises _ => None
  end.

(** The two command lines, as the strings the process receives. *)
Definition get_pods_argv (namespace : option str) : list str :=
  [s "kubectl"; s "get"; s "pods"; s "-o"; s "json"]
  ++ match truthy namespace with
     | Some ns => [s "-n"; ns]
     | None => [s "--all-namespaces"]
     end.

Definition get_logs_argv (a : arguments) (name ns container : str)
    : list str :=
  [ s "kubectl"; s "logs"; name; s "-n"; ns; s "-c"; container;
    s "--since=" ++ since a; s "--tail=" ++ str_of_Z (tail a) ].

(** The process that lists the pods, and the one that reads the logs of a
    container. *)
Definition listing (w : world) (a : arguments) : process :=
  run_process w (get_pods_argv (namespace a)).

Definition log_process (w : world) (a : arguments) (name ns container : str)
    : process :=
  run_process w (get_logs_argv a name ns container).

(** A fetch times out when the process takes more than 30 units. *)
Definition timed_out (w : world) (a : arguments) (name ns container : str)
    : bool :=
  30 <? elapsed (log_process w a name ns container).

(** The hits of a container in a run: those of its log text, none when the
    fetch timed out. *)
Definition container_hits (w : world) (a : arguments)
    (name ns container : str) : list str :=
  if timed_out w a name ns container then []
  else scan_logs (stdout (log_process w a name ns container)).

Definition key_of (ns name container : str) : str :=
  ns ++ s "/" ++ name ++ s "/" ++ container.

Definition warning_of (ns name container : str) : str :=
  s "  WARN: timeout reading logs from " ++ key_of ns name container.

(** The tables and the warnings after the containers of one pod. *)
Definition pod_tables (w : world) (a : arguments) (p : PodRef) (t : tables)
    : tables :=
  fold_left
    (fun t c =>
       record_hits (key_of (pod_namespace p) (pod_name p) c)
         (container_hits w a (pod_name p) (pod_namespace p) c) t)
    (pod_containers p) t.

Definition pod_warnings (w : world) (a : arguments) (p : PodRef)
    : list str :=
  flat_map
    (fun c =>
       if timed_out w a (pod_name p) (pod_namespace p) c
       then [warning_of (pod_namespace p) (pod_name p) c]
       else [])
    (pod_containers p).

Definition pods_tables (w : world) (a : arguments) (ps : list PodRef)
    (t : tables) : tables :=
  fold_left (fun t p => pod_tables w a p t) ps t.

(** The per-container hit lists of a run, in the order of processing. *)
Definition pods_hits (w : world) (a : arguments) (ps : list PodRef)
    : list (list str) :=
  flat_map
    (fun p =>
       map (container_hits w a (pod_name p) (pod_namespace p))
         (pod_containers p))
    ps.

(** The endpoint tally built from per-container hit lists, as [main] builds
    [all_endpoints]. *)
Definition aggregate (per_container : list (list str)) (all : dict nat)
    : dict nat :=
  fold_left (fun all hits => merge_items (extract_endpoints hits) all)
    per_container all.

(** The pod list of a run, when the command succeeded and its output could
    be read. *)
Definition listed_pods (w : world) (a : arguments) : option (list PodRef) :=
  if (returncode (listing w a) =? 0)%Z then
    match json_loads w (stdout (listing w a)) with
    | Some j => read_listing j
    | None => None
    end
  else None.

(** The two ways the pod list can fail. *)
Definition listing_failed (w : world) (a : arguments) : Prop :=
  returncode (listing w a) <> 0%Z.

Definition listing_unreadable (w : world) (a : arguments) : Prop :=
  match json_loads w (stdout (listing w a)) with
  | Some j => read_listing j = None
  | None => True
  end.

Definition io0 : io := IO [] [].

(** An exception other than [sys.exit]: when it is not caught the process
    ends with status 1. *)
Definition is_error (e : exn) : bool :=
  match e with
  | SystemExit _ => false
  | _ => true
  end.

(** A computation started from [o] that stops on such an exception, with
    nothing more on standard output. *)
Definition crashed {A} (r : res A) (o : io) : Prop :=
  exit_status r = 1%Z /\ out (printed r) = out o.

(** The hits that name an endpoint, summed over the items of a table. *)
Definition total (ep : str) (items : list (str * nat)) : nat :=
  list_sum (map (fun kv => if str_eqb ep (fst kv) then snd kv else 0) items).
Definition str_eq_dec (a b : str) : {a = b} + {a <> b} :=
  list_eq_dec ascii_dec a b.

Definition sample_log : str :=
  s "  dial tcp 10.0.0.5:443: connection refused, no such host  " ++ [NL]
  ++ s "GET /healthz 200" ++ [CR; NL]
  ++ s "upstream connect error".

Definition quiet_log : str :=
  s "GET /healthz 200" ++ [NL] ++ s "connected to db:5432".

Definition dial_line : str := s "dial tcp 10.0.0.5:443: i/o timeout".

Definition failed_line : str := s "failed to connect to svc.internal:8080".

(** Sample worlds.  [sample_world rc pods logs] lists [pods] with return
    code [rc]; a container named [slow] takes 31 units to give its logs,
    one named [down] fails with code 1 and no output, any other container
    gives [logs] at once. *)
Definition sample_process (rc : Z) (logs : str) (argv : list str) : process :=
  if str_eqb (nth 1 argv []) (s "get") then
    Process rc (s "{...}") (s "boom") 0
  else if str_eqb (nth 6 argv []) (s "slow") then Process 0 logs [] 31
  else if str_eqb (nth 6 argv []) (s "down") then
    Process 1 [] (s "Error from server") 2
  else Process 0 logs [] 1.

Definition sample_world (rc : Z) (pods : list json) (logs : str) : world :=
  World (sample_process rc logs)
        (fun _ => Some (JObj [(s "items", JArr pods)])).

Definition sample_pod (ns name : str) (containers : list str) : json :=
  JObj [ (s "metadata",
          JObj [(s "name", JStr name); (s "namespace", JStr ns)]);
         (s "spec",
          JObj [(s "containers",
                 JArr (map (fun c => JObj [(s "name", JStr c)])
                         containers))]) ].

Definition sample_args : arguments := Args None (s "1h") 500.

Definition idle_world : world := sample_world 0 [] [].

Definition broken_world : world := sample_world 1 [] [].

Definition quiet_world : world :=
  sample_world 0 [sample_pod (s "web") (s "api") [s "app"; s "slow"]]
    quiet_log.

Definition noisy_world : world :=
  sample_world 0
    [ sample_pod (s "web") (s "api") [s "app"; s "slow"; s "down"];
      sample_pod (s "db") (s "pg") [s "main"] ]
    sample_log.

(** Eight distinct hit lines, the second one three times. *)
Definition eight_hits : list str :=
  [ s "NXDOMAIN a"; s "NXDOMAIN b"; s "NXDOMAIN c"; s "NXDOMAIN b";
    s "NXDOMAIN d"; s "NXDOMAIN e"; s "NXDOMAIN b"; s "NXDOMAIN f";
    s "NXDOMAIN g"; s "NXDOMAIN h" ].


(** Further sample inputs. *)
Definition unreadable_world : world :=
  sample_world 0
    [ sample_pod (s "web") (s "api") [s "slow"];
      JObj [(s "metadata", JObj [(s "name", JStr (s "orphan"))])] ]
    sample_log.

Definition undecodable_world : world :=
  World (sample_process 0 []) (fun _ => None).

(** The containers of a pod whose fetch timed out. *)
Definition slow_containers (w : world) (a : arguments) (p : PodRef)
    : list str :=
  filter (timed_out w a (pod_name p) (pod_namespace p)) (pod_containers p).

(** The endpoint a hit line gives: group 1 of the first of the two
    extraction patterns found in it. *)
Definition endpoint_of (line : str) : option str :=
  match search ep_re line with
  | Some m => m
  | None =>
      match search host_re line with
      | Some m => m
      | None => None
      end
  end.

(** The line gives the endpoint [ep]. *)
Definition names (ep : str) (line : str) : bool :=
  match endpoint_of line with
  | Some g => str_eqb ep g
  | None => false
  end.

(** Every character, for checks by enumeration. *)
Definition all_ascii : list ascii := map ascii_of_nat (seq 0 256).

(** What [main] keeps true of its two tables: distinct keys, no empty hit
    list, no count below one. *)
Definition tables_ok (t : tables) : Prop :=
  NoDup (Dict.keys (fst t))
  /\ Forall (fun kv => snd kv <> []) (fst t)
  /\ NoDup (Dict.keys (snd t))
  /\ Forall (fun kv => 1 <= snd kv) (snd t).

(** The container [c] of pod [p] has the key [key] and the hits [hits]. *)
Definition reported (w : world) (a : arguments) (ps : list PodRef)
    (key : str) (hits : list str) : Prop :=
  exists p c,
    In p ps /\ In c (pod_containers p)
    /\ key = pod_namespace p ++ s "/" ++ pod_name p ++ s "/" ++ c
    /\ hits = container_hits w a (pod_name p) (pod_namespace p) c
    /\ hits <> [].

(** Checks on an expression, by its shape: its language has only the empty
    text; every text of its language starts, or ends, with a character that
    is not whitespace. *)
Definition atom_nonspace (ic : bool) (a : atom) : bool :=
  forallb (fun ch => implb (atom_match ic a ch) (negb (isspace ch)))
    all_ascii.

Fixpoint only_eps (r : regex) : bool :=
  match r with
  | Eps => true
  | Seq r1 r2 => only_eps r1 && only_eps r2
  | Group r1 => only_eps r1
  | _ => false
  end.

Fixpoint first_nonspace (ic : bool) (r : regex) : bool :=
  match r with
  | Atom a => atom_nonspace ic a
  | Plus a => atom_nonspace ic a
  | Seq r1 r2 =>
      if only_eps r1 then first_nonspace ic r2 else first_nonspace ic r1
  | Alt r1 r2 => first_nonspace ic r1 && first_nonspace ic r2
  | Group r1 => first_nonspace ic r1
  | _ => false
  end.

Fixpoint last_nonspace (ic : bool) (r : regex) : bool :=
  match r with
  | Atom a => atom_nonspace ic a
  | Plus a => atom_nonspace ic a
  | Seq r1 r2 =>
      if only_eps r2 then last_nonspace ic r1 else last_nonspace ic r2
  | Alt r1 r2 => last_nonspace ic r1 && last_nonspace ic r2
  | Group r1 => last_nonspace ic r1
  | _ => false
  end.

(** The first character, if any, does not satisfy [p]. *)
Definition head_not (p : ascii -> bool) (l : str) : Prop :=
  match l with
  | [] => True
  | c :: _ => p c = false
  end.

(* ================================================================= *)
(** ** The script from its command line, with the failures of the
       libraries

    [main] as a whole: lines 80 to 84 hand the command line to [argparse],
    which returns the arguments or leaves with a status of its own (2 for a
    command line it rejects, 0 after [--help]; what it prints is left out);
    [subprocess.run] can fail to start the command ([OSError]), refuse an
    argument with a NUL character ([ValueError]) and, with [text=True], fail
    to decode what the command wrote ([UnicodeDecodeError]).  The program
    below is the program above with the call of [subprocess.run] and the
    decoder as parameters (lemma [main_with_world]). *)

Section Script.
Variable run : list json -> option nat -> result process.
Variable loads : str -> option json.

Definition get_pods_with (namespace : option str) : M json :=
  result <- lift (run (get_pods_cmd namespace) None) ;;
  if negb (returncode result =? 0)%Z then
    print_err (s "ERROR: kubectl get pods failed: " ++ stderr result) ;;;
    raise (SystemExit 1)
  else
    match loads (stdout result) with
    | None => raise JSONDecodeError
    | Some j => lift (getitem j (s "items"))
    end.

Definition get_logs_with (pod_name namespace container : json)
    (since : str) (tail : Z) : result str :=
  match run (get_logs_cmd pod_name namespace container since tail) (Some 30)
  with
  | Returns result => Returns (stdout result)
  | Raises e => Raises e
  end.

Definition scan_container_with (a : arguments)
    (pod_name ns container : json) (t : tables) : M tables :=
  match get_logs_with pod_name ns container (since a) (tail a) with
  | Raises TimeoutExpired =>
      print_err (s "  WARN: timeout reading logs from "
                 ++ container_key ns pod_name container) ;;;
      ret t
  | Raises e => raise e
  | Returns logs =>
      let hits := scan_logs logs in
      ret (record_hits (container_key ns pod_name container) hits t)
  end.

Fixpoint scan_containers_with (a : arguments) (pod_name ns : json)
    (containers : list json) (t : tables) : M tables :=
  match containers with
  | [] => ret t
  | container :: rest =>
      t' <- scan_container_with a pod_name ns container t ;;
      scan_containers_with a pod_name ns rest t'
  end.

Definition scan_pod_with (a : arguments) (pod : json) (t : tables)
    : M tables :=
  pod_name <- lift (metadata pod (s "name")) ;;
  ns <- lift (metadata pod (s "namespace")) ;;
  containers <- lift (container_names pod) ;;
  scan_containers_with a pod_name ns containers t.

Fixpoint scan_pods_with (a : arguments) (pods : list json) (t : tables)
    : M tables :=
  match pods with
  | [] => ret t
  | pod :: rest =>
      t' <- scan_pod_with a pod t ;;
      scan_pods_with a rest t'
  end.

Definition collect_with (a : arguments) : M tables :=
  pods <- get_pods_with (namespace a) ;;
  n <- lift (py_len pods) ;;
  print (scanning_line n a) ;;;
  items <- lift (py_iter pods) ;;
  scan_pods_with a items ([], []).

Definition main_with (a : arguments) : M unit :=
  t <- collect_with a ;;
  render t.
End Script.

(** What [parser.parse_args()] does with a command line. *)
Inductive parsed : Type :=
| Parsed (a : arguments)
| ParserExit (status : Z).

(** What becomes of a command: it cannot be started, or it ends as a
    process whose output is text or is not. *)
Inductive launch : Type :=
| NotStarted
| Finished (p : process) (is_text : bool).

(** The machine the script runs on. *)
Record host : Type := Host {
  parse_args : list str -> parsed;
  launch_of : list str -> launch;
  loads_of : str -> option json
}.

Definition has_nul (x : str) : bool :=
  existsb (fun c => Ascii.eqb c (chr 0)) x.

(** The arguments of a command, taken in order: each must be a string, and
    free of NUL. *)
Fixpoint cmd_args_host (cmd : list json) : result (list str) :=
  match cmd with
  | [] => Returns []
  | JStr x :: rest =>
      if has_nul x then Raises ValueError
      else
        match cmd_args_host rest with
        | Returns xs => Returns (x :: xs)
        | Raises e => Raises e
        end
  | _ :: _ => Raises TypeError
  end.

(** [subprocess.run(cmd, capture_output=True, text=True, timeout=t)] on a
    host: the timeout comes before the decoding of the output. *)
Definition subprocess_run_host (h : host) (cmd : list json)
    (timeout : option nat) : result process :=
  match cmd_args_host cmd with
  | Raises e => Raises e
  | Returns argv =>
      match launch_of h argv with
      | NotStarted => Raises OSError
      | Finished p is_text =>
          let late :=
            match timeout with
            | Some t => t <? elapsed p
            | None => false
            end in
          if late then Raises TimeoutExpired
          else if is_text then Returns p
          else Raises UnicodeDecodeError
      end
  end.

(** [main()], from the command line. *)
Definition script (h : host) (argv : list str) : M unit :=
  match parse_args h argv with
  | ParserExit status => raise (SystemExit status)
  | Parsed a => main_with (subprocess_run_host h) (loads_of h) a
  end.

Definition run_script (h : host) (argv : list str) : outcome :=
  let r := script h argv io0 in
  Outcome (text (out (printed r))) (err (printed r)) (exit_status r).

(** The world a host is when every command starts. *)
Definition world_of (h : host) : world :=
  World
    (fun argv =>
       match launch_of h argv with
       | Finished p _ => p
       | NotStarted => Process 0 [] [] 0
       end)
    (loads_of h).

(** The pod list as the specification describes it: an object whose [items]
    is a list of pods; a pod has [metadata] with a [name] and a [namespace],
    both strings, and may have a [spec] whose [containers], if any, is a
    list of objects with a [name] that is a string.  The strings are free of
    NUL, as names of Kubernetes objects are. *)
Definition name_ok (j : json) : bool :=
  match j with
  | JStr x => negb (has_nul x)
  | _ => false
  end.

Definition field_ok (k : str) (o : list (str * json)) : bool :=
  match lookup k o with
  | Some v => name_ok v
  | None => false
  end.

Definition container_ok (c : json) : bool :=
  match c with
  | JObj o => field_ok (s "name") o
  | _ => false
  end.

Definition spec_ok (spec : option json) : bool :=
  match spec with
  | None => true
  | Some (JObj sp) =>
      match lookup (s "containers") sp with
      | None => true
      | Some (JArr cs) => forallb container_ok cs
      | Some _ => false
      end
  | Some _ => false
  end.

Definition pod_ok (pod : json) : bool :=
  match pod with
  | JObj o =>
      match lookup (s "metadata") o with
      | Some (JObj m) =>
          field_ok (s "name") m && field_ok (s "namespace") m
          && spec_ok (lookup (s "spec") o)
      | _ => false
      end
  | _ => false
  end.

Definition well_formed (j : json) : bool :=
  match j with
  | JObj o =>
      match lookup (s "items") o with
      | Some (JArr pods) => forallb pod_ok pods
      | _ => false
      end
  | _ => false
  end.

(** The parsed arguments hold no NUL, as the arguments of a process. *)
Definition args_clean (a : arguments) : Prop :=
  has_nul (since a) = false
  /\ match namespace a with
     | Some ns => has_nul ns = false
     | None => True
     end.

(** Every command starts and writes text. *)
Definition text_host (h : host) : Prop :=
  forall argv, exists p, launch_of h argv = Finished p true.

(** The three cases of the pod list on a host. *)
Definition listing_fails (h : host) (a : arguments) : Prop :=
  match launch_of h (get_pods_argv (namespace a)) with
  | NotStarted => True
  | Finished p is_text => is_text = false \/ returncode p <> 0%Z
  end.

Definition listing_not_json (h : host) (a : arguments) : Prop :=
  match launch_of h (get_pods_argv (namespace a)) with
  | NotStarted => False
  | Finished p _ => loads_of h (stdout p) = None
  end.

Definition listing_well_formed (h : host) (a : arguments) : Prop :=
  match launch_of h (get_pods_argv (namespace a)) with
  | Finished p true =>
      returncode p = 0%Z
      /\ exists j, loads_of h (stdout p) = Some j /\ well_formed j = true
  | _ => False
  end.

(** Sample hosts, with a well-formed list of one pod and one container.
    [flag_host] has what [argparse] does with the two command lines used
    below: none gives the defaults, [--tail abc] is rejected with status 2.
    On [binary_host] the container writes bytes that are not text. *)
Definition listed_host (parse : list str -> parsed)
    (logs_are_text : bool) : host :=
  Host parse
    (fun argv =>
       if str_eqb (nth 1 argv []) (s "get")
       then Finished (Process 0 (s "{...}") [] 0) true
       else Finished (Process 0 sample_log [] 1) logs_are_text)
    (fun _ =>
       Some (JObj [(s "items",
                    JArr [sample_pod (s "web") (s "api") [s "app"]])])).

Definition flag_host : host :=
  listed_host
    (fun argv =>
       match argv with
       | [] => Parsed sample_args
       | _ :: _ => ParserExit 2
       end)
    true.

Definition binary_host : host :=
  listed_host (fun _ => Parsed sample_args) false.

Definition plain_host : host :=
  listed_host (fun _ => Parsed sample_args) true.

(* ================================================================= *)
(** * Properties *)

(** ** Strings and dictionaries *)

Lemma str_eqb_eq (a b : str) : str_eqb a b = true <-> a = b.
Proof.
  revert b; induction a as [|x a IH]; intros [|y b]; simpl;
    try (split; [discriminate | discriminate]); [tauto|].
  rewrite andb_true_iff, Ascii.eqb_eq, IH.
  split; [intros [-> ->]; reflexivity | intros H; inversion H; auto].
Qed.

Lemma str_eqb_refl (a : str) : str_eqb a a = true.
Proof. apply str_eqb_eq; reflexivity. Qed.

Lemma str_eqb_neq (a b : str) : str_eqb a b = false <-> a <> b.
Proof.
  rewrite <- str_eqb_eq. destruct (str_eqb a b); split; congruence.
Qed.

Lemma str_eqb_sym (a b : str) : str_eqb a b = str_eqb b a.
Proof.
  destruct (str_eqb a b) eqn:E.
  - apply str_eqb_eq in E; subst; symmetry; apply str_eqb_refl.
  - symmetry; apply str_eqb_neq; apply str_eqb_neq in E; congruence.
Qed.

(** ** The matcher *)

Section MatcherFacts.
Variable R : Type.
Variable ic : bool.

(** Whatever the matcher returns was returned by the continuation. *)
Lemma star_result (a : atom) (l : str) (k : str -> option R) (x : R) :
  star ic a l k = Some x -> exists l', k l' = Some x.
Proof.
  induction l as [|ch l IH]; cbn [star]; intros H.
  - eauto.
  - destruct (atom_match ic a ch); [|eauto].
    destruct (star ic a l k) eqn:E; [|eauto].
    inversion H; subst. auto.
Qed.

Lemma rmatch_result (r : regex) :
  forall (l : str) (cap : option str) (k : str -> option str -> option R)
         (x : R),
    rmatch ic r l cap k = Some x -> exists l' cap', k l' cap' = Some x.
Proof.
  induction r as [|a|r1 IH1 r2 IH2|r1 IH1 r2 IH2|a|a|r1 IH1|r1 IH1];
    intros l cap k x; cbn [rmatch]; intros H.
  - eauto.
  - destruct l as [|ch l]; [discriminate|].
    destruct (atom_match ic a ch); [eauto | discriminate].
  - apply IH1 in H as (l1 & c1 & H). eapply IH2; eauto.
  - destruct (rmatch ic r1 l cap k) eqn:E.
    + inversion H; subst. eapply IH1; eauto.
    + eapply IH2; eauto.
  - apply star_result in H as (l' & H). eauto.
  - destruct l as [|ch l]; [discriminate|].
    destruct (atom_match ic a ch); [|discriminate].
    apply star_result in H as (l' & H). eauto.
  - destruct (rmatch ic r1 l cap k) eqn:E.
    + inversion H; subst. eapply IH1; eauto.
    + eauto.
  - apply IH1 in H as (l1 & c1 & H). eauto.
Qed.
End MatcherFacts.

(** The matcher finds a match exactly when a prefix of the text is in the
    language of the expression and the continuation accepts the rest. *)
Section MatcherCorrect.
Variable R : Type.
Variable ic : bool.

Lemma star_sound (a : atom) (l : str) (k : str -> option R) (x : R) :
  star ic a l k = Some x ->
  exists u v,
    l = u ++ v /\ Forall (fun ch => atom_match ic a ch = true) u
    /\ k v = Some x.
Proof.
  induction l as [|ch l IH]; cbn [star]; intros H.
  - exists [], []. auto.
  - destruct (atom_match ic a ch) eqn:E;
      [|exists [], (ch :: l); auto].
    destruct (star ic a l k) as [y|] eqn:S;
      [|exists [], (ch :: l); auto].
    inversion H; subst y.
    destruct (IH eq_refl) as (u & v & -> & F & K).
    exists (ch :: u), v. auto.
Qed.

Lemma rmatch_sound (r : regex) :
  forall (l : str) (cap : option str) (k : str -> option str -> option R)
         (x : R),
    rmatch ic r l cap k = Some x ->
    exists u v cap', l = u ++ v /\ lang ic r u /\ k v cap' = Some x.
Proof.
  induction r as [|a|r1 IH1 r2 IH2|r1 IH1 r2 IH2|a|a|r1 IH1|r1 IH1];
    intros l cap k x; cbn [rmatch]; intros H.
  - exists [], l, cap. auto using lang_eps.
  - destruct l as [|ch l]; [discriminate|].
    destruct (atom_match ic a ch) eqn:E; [|discriminate].
    exists [ch], l, cap. auto using lang_atom.
  - apply IH1 in H as (u1 & v1 & c1 & -> & L1 & H).
    apply IH2 in H as (u2 & v2 & c2 & -> & L2 & H).
    exists (u1 ++ u2), v2, c2. rewrite <- app_assoc.
    auto using lang_seq.
  - destruct (rmatch ic r1 l cap k) as [y|] eqn:E.
    + inversion H; subst y.
      apply IH1 in E as (u & v & c & -> & L & K).
      exists u, v, c. auto using lang_alt_l.
    + apply IH2 in H as (u & v & c & -> & L & K).
      exists u, v, c. auto using lang_alt_r.
  - apply star_sound in H as (u & v & -> & F & K).
    exists u, v, cap. auto using lang_star.
  - destruct l as [|ch l]; [discriminate|].
    destruct (atom_match ic a ch) eqn:E; [|discriminate].
    apply star_sound in H as (u & v & -> & F & K).
    exists (ch :: u), v, cap. auto using lang_plus.
  - destruct (rmatch ic r1 l cap k) as [y|] eqn:E.
    + inversion H; subst y.
      apply IH1 in E as (u & v & c & -> & L & K).
      exists u, v, c. auto using lang_opt_some.
    + exists [], l, cap. auto using lang_opt_none.
  - apply IH1 in H as (u & v & c & -> & L & K).
    eexists u, v, _. eauto using lang_group.
Qed.

Lemma star_here (a : atom) (l : str) (k : str -> option R) :
  k l <> None -> star ic a l k <> None.
Proof.
  destruct l as [|ch l]; cbn [star]; [auto|]. intros H.
  destruct (atom_match ic a ch); [|exact H].
  destruct (star ic a l k); [discriminate | exact H].
Qed.

Lemma star_complete (a : atom) (u v : str) (k : str -> option R) :
  Forall (fun ch => atom_match ic a ch = true) u ->
  k v <> None -> star ic a (u ++ v) k <> None.
Proof.
  induction 1 as [|ch u E F IH]; intros K; cbn [app].
  - now apply star_here.
  - cbn [star]. rewrite E.
    destruct (star ic a (u ++ v) k) eqn:S; [discriminate|].
    now elim (IH K).
Qed.

Lemma rmatch_complete (r : regex) (u : str) :
  lang ic r u ->
  forall (v : str) (cap : option str) (k : str -> option str -> option R),
    (forall c, k v c <> None) -> rmatch ic r (u ++ v) cap k <> None.
Proof.
  induction 1 as [|a ch E|r1 r2 u1 u2 _ IH1 _ IH2|r1 r2 u _ IH|r1 r2 u _ IH
                 |a u F|a ch u F|r|r u _ IH|r u _ IH];
    intros v cap k K; cbn [rmatch app].
  - apply K.
  - rewrite E. apply K.
  - rewrite <- app_assoc. apply IH1. intros c. now apply IH2.
  - destruct (rmatch ic r1 (u ++ v) cap k) eqn:M; [discriminate|].
    now elim (IH v cap k K).
  - destruct (rmatch ic r1 (u ++ v) cap k); [discriminate|]. now apply IH.
  - apply star_complete; [exact F | apply K].
  - inversion F as [|? ? E F']; subst. rewrite E.
    apply star_complete; [exact F' | apply K].
  - destruct (rmatch ic r v cap k); [discriminate | apply K].
  - destruct (rmatch ic r (u ++ v) cap k) eqn:M; [discriminate|].
    now elim (IH v cap k K).
  - apply IH. intros c. apply K.
Qed.
End MatcherCorrect.

(** [p.search(line)] finds a match exactly when the pattern matches
    somewhere in the line. *)
Lemma found_occurs (p : pattern) (line : str) :
  found p line = true <-> occurs_in p line.
Proof.
  unfold found, occurs_in. split.
  - induction line as [|c line IH]; cbn [search];
      destruct (match_here p _) as [m|] eqn:E; intros H.
    + apply rmatch_sound in E as (u & v & _ & -> & L & _).
      exists [], u, v. auto.
    + discriminate.
    + apply rmatch_sound in E as (u & v & _ & E & L & _).
      exists [], u, v. auto.
    + destruct (IH H) as (b & u & a & -> & L).
      exists (c :: b), u, a. auto.
  - intros (b & u & a & -> & L).
    assert (M : match_here p (u ++ a) <> None).
    { unfold match_here. apply rmatch_complete; [exact L | discriminate]. }
    induction b as [|c b IH]; cbn [app].
    + destruct (u ++ a); cbn [search];
        destruct (match_here p _); congruence.
    + cbn [search]. destruct (match_here p (c :: b ++ u ++ a));
        [reflexivity | exact IH].
Qed.

(** A line is a hit exactly when one of the six patterns matches somewhere
    in it. *)
Lemma is_hit_occurs (line : str) :
  is_hit line = true
  <-> exists p, In p ERROR_PATTERNS /\ occurs_in p line.
Proof.
  unfold is_hit. rewrite existsb_exists.
  split; intros (p & I & H); exists p; split; auto; now apply found_occurs.
Qed.

(** ** Scanner *)

Lemma scan_line_is_hit (line : str) :
  scan_line ERROR_PATTERNS line
  = if is_hit line then Some (strip line) else None.
Proof.
  unfold is_hit, found.
  induction ERROR_PATTERNS as [|p ps IH]; simpl; [reflexivity|].
  destruct (search p line); simpl; [reflexivity | exact IH].
Qed.

Lemma scan_lines_acc (lines hits : list str) :
  scan_lines lines hits = hits ++ map strip (filter is_hit lines).
Proof.
  revert hits; induction lines as [|l ls IH]; intros hits;
    cbn [scan_lines filter].
  - cbn [map]. now rewrite app_nil_r.
  - rewrite scan_line_is_hit. destruct (is_hit l); rewrite IH; cbn [map].
    + now rewrite <- app_assoc.
    + reflexivity.
Qed.

Lemma filter_none (A : Type) (f : A -> bool) (l : list A) :
  forallb (fun x => negb (f x)) l = true -> filter f l = [].
Proof.
  induction l as [|x l IH]; cbn [forallb filter]; [reflexivity|].
  intros H. apply andb_true_iff in H as [Hx Hl].
  apply negb_true_iff in Hx. rewrite Hx. auto.
Qed.

(** C3.  For every log text, [scan_logs] returns the trimmed lines in which
    some pattern of the fixed list is found, in the order of the text; so a
    line is recorded once however many patterns it matches, the number of
    hits is the number of such lines, and a text none of whose lines matches
    gives the empty sequence.  A line counts when one of the six patterns
    matches somewhere in it. *)
Theorem scan_logs_hits (log_text : str) :
  scan_logs log_text = map strip (filter is_hit (splitlines log_text))
  /\ length (scan_logs log_text)
     = length (filter is_hit (splitlines log_text))
  /\ (forall h,
        In h (scan_logs log_text)
        <-> exists line,
              In line (splitlines log_text) /\ h = strip line
              /\ exists p, In p ERROR_PATTERNS /\ occurs_in p line)
  /\ (forallb (fun l => negb (is_hit l)) (splitlines log_text) = true ->
      scan_logs log_text = []).
Proof.
  assert (E : scan_logs log_text
              = map strip (filter is_hit (splitlines log_text))).
  { unfold scan_logs. now rewrite scan_lines_acc. }
  split; [exact E|]. split; [|split].
  - rewrite E. apply length_map.
  - intros h. rewrite E, in_map_iff. split.
    + intros (line & <- & I). apply filter_In in I as [I H].
      exists line. split; [exact I|]. split; [reflexivity|].
      now apply is_hit_occurs.
    + intros (line & I & -> & H). exists line. split; [reflexivity|].
      apply filter_In. split; [exact I|]. now apply is_hit_occurs.
  - intros H. rewrite E, (filter_none _ _ H). reflexivity.
Qed.

Lemma scan_logs_hits_witness :
  scan_logs sample_log
  = [ s "dial tcp 10.0.0.5:443: connection refused, no such host";
      s "upstream connect error" ]
  /\ scan_logs quiet_log = [].
Proof.
  split.
  - rewrite (proj1 (scan_logs_hits sample_log)). vm_compute. reflexivity.
  - destruct (scan_logs_hits quiet_log) as (_ & _ & _ & H).
    apply H. vm_compute. reflexivity.
Defined.

(** ** Extractor *)

(** A pattern that ends with its group: every match has a group 1. *)
Lemma search_group (pre g : regex) (ic : bool) (l : str) (m : match_object) :
  search (Pattern (seqs [pre; Group g]) ic) l = Some m ->
  exists x, m = Some x.
Proof.
  induction l as [|c l IH]; cbn [search];
    destruct (match_here _ _) as [m'|] eqn:E; intros H;
    try discriminate; try (now apply IH).
  all: inversion H; subst m'; clear H;
    unfold match_here in E; cbn [rx ignorecase seqs fold_right rmatch] in E;
    apply rmatch_result in E as (l1 & c1 & E);
    apply rmatch_result in E as (l2 & c2 & E);
    inversion E; eauto.
Qed.

Lemma ep_re_group (l : str) (m : match_object) :
  search ep_re l = Some m -> exists x, m = Some x.
Proof. apply search_group. Qed.

Lemma host_re_group (l : str) (m : match_object) :
  search host_re l = Some m -> exists x, m = Some x.
Proof. apply search_group. Qed.

(** The patterns on lines of the kinds they were written for. *)
Example hit_dial_refused :
  scan_logs (s "E dial tcp 10.1.2.3:9090: connect: Connection Refused (retry)")
  = [s "E dial tcp 10.1.2.3:9090: connect: Connection Refused (retry)"].
Proof. vm_compute. reflexivity. Qed.

Example hit_no_such_host :
  scan_logs (s "lookup redis.cache on 10.96.0.10:53: No Such Host")
  = [s "lookup redis.cache on 10.96.0.10:53: No Such Host"].
Proof. vm_compute. reflexivity. Qed.

Example hit_connection_timed_out :
  map is_hit [ s "connection timed out"; s "connect refused";
               s "connected to db"; s "HTTP 503 service unavailable";
               s "dial tcp [::1]:80: i/o timeout"; s "dial tcp" ]
  = [true; true; false; true; false; false].
Proof. vm_compute. reflexivity. Qed.

Example extract_addr_quoted :
  extract_endpoints
    [ s "Addr: " ++ [BACKSLASH; DQUOTE] ++ s "kafka-0.kafka:9092"
      ++ [BACKSLASH; DQUOTE];
      s "error connecting tokafka-0.kafka:9092 now";
      s "dial tcp: lookup x: no such host" ]
  = [(s "kafka-0.kafka:9092", 2)].
Proof. vm_compute. reflexivity. Qed.

(** C5.  The line [dial tcp 10.0.0.5:443: i/o timeout] is a hit, the first
    extraction pattern is found in it with group 1 equal to [10.0.0.5:443],
    and [extract_endpoints] counts that endpoint once. *)
Theorem extract_dial_tcp :
  scan_logs dial_line = [dial_line]
  /\ search ep_re dial_line = Some (Some (s "10.0.0.5:443"))
  /\ extract_endpoints [dial_line] = [(s "10.0.0.5:443", 1)].
Proof. repeat split; vm_compute; reflexivity. Qed.

(** C2, as the code behaves.  The line
    [failed to connect to svc.internal:8080] is a hit (the sixth scanner
    pattern), but neither extraction pattern is found in it: in [host_re]
    the group follows [connect to] at once, and the line has a space there.
    [extract_endpoints] returns the empty table for it. *)
Theorem extract_failed_to_connect :
  scan_logs failed_line = [failed_line]
  /\ search ep_re failed_line = None
  /\ search host_re failed_line = None
  /\ extract_endpoints [failed_line] = [].
Proof. repeat split; vm_compute; reflexivity. Qed.

(** The same line without that space gives the endpoint. *)
Example extract_without_space :
  extract_endpoints [s "failed to connect tosvc.internal:8080"]
  = [(s "svc.internal:8080", 1)].
Proof. vm_compute. reflexivity. Qed.

(** ** The scan, pod by pod *)

Lemma io_eta (o : io) : IO (out o) (err o ++ []) = o.
Proof. destruct o; cbn. now rewrite app_nil_r. Qed.

Lemma get_logs_strs (w : world) (a : arguments) (n ns c : str) :
  get_logs w (JStr n) (JStr ns) (JStr c) (since a) (tail a)
  = if timed_out w a n ns c then Raises TimeoutExpired
    else Returns (stdout (log_process w a n ns c)).
Proof.
  unfold get_logs, subprocess_run, get_logs_cmd, timed_out, log_process.
  cbn [cmd_args]. fold (get_logs_argv a n ns c).
  destruct (30 <? _); reflexivity.
Qed.

(** [get_logs] returns or times out only when the three names are strings;
    otherwise it raises [TypeError]. *)
Lemma get_logs_strings (w : world) (a : arguments) (n ns c : json) :
  (is_str n && is_str ns && is_str c = true
   /\ get_logs w n ns c (since a) (tail a) <> Raises TypeError)
  \/ (is_str n && is_str ns && is_str c = false
      /\ get_logs w n ns c (since a) (tail a) = Raises TypeError).
Proof.
  destruct n as [| | |n| |]; try (right; split; reflexivity).
  destruct ns as [| | |ns| |]; try (right; split; reflexivity).
  destruct c as [| | |c| |]; try (right; split; reflexivity).
  left. split; [reflexivity|]. rewrite get_logs_strs.
  destruct (timed_out w a n ns c); discriminate.
Qed.

Lemma scan_container_strs (w : world) (a : arguments) (n ns c : str)
    (t : tables) (o : io) :
  scan_container w a (JStr n) (JStr ns) (JStr c) t o
  = Ok (record_hits (key_of ns n c) (container_hits w a n ns c) t)
       (IO (out o)
           (err o ++ if timed_out w a n ns c
                     then [warning_of ns n c] else [])).
Proof.
  unfold scan_container, container_hits. rewrite get_logs_strs.
  destruct (timed_out w a n ns c).
  - reflexivity.
  - unfold ret. now rewrite io_eta.
Qed.

Lemma scan_containers_strs (w : world) (a : arguments) (n ns : str)
    (cs : list str) :
  forall (t : tables) (o : io),
    scan_containers w a (JStr n) (JStr ns) (map JStr cs) t o
    = Ok (pod_tables w a (Pod n ns cs) t)
         (IO (out o) (err o ++ pod_warnings w a (Pod n ns cs))).
Proof.
  unfold pod_tables, pod_warnings. cbn [pod_name pod_namespace pod_containers].
  induction cs as [|c cs IH]; intros t o.
  - cbn. unfold ret. now rewrite io_eta.
  - cbn [map scan_containers fold_left flat_map]. unfold bind.
    rewrite scan_container_strs, IH. cbn [out err].
    now rewrite app_assoc.
Qed.

Lemma scan_containers_not_strs (w : world) (a : arguments) (n ns : json)
    (cs : list json) :
  cs <> [] ->
  is_str n && is_str ns && forallb is_str cs = false ->
  forall (t : tables) (o : io),
    crashed (scan_containers w a n ns cs t o) o.
Proof.
  induction cs as [|c cs IH]; intros Hne Hstr t o; [congruence|].
  cbn [scan_containers]. unfold bind, scan_container.
  destruct (get_logs_strings w a n ns c) as [[S G]|[S G]].
  - apply andb_true_iff in S as [S Sc]. rewrite S in Hstr.
    cbn [forallb] in Hstr. rewrite Sc in Hstr. cbn [andb] in Hstr.
    assert (Hcs : cs <> []) by (intros ->; discriminate).
    assert (Hrest : true && forallb is_str cs = false) by exact Hstr.
    rewrite <- S in Hrest.
    destruct (get_logs w n ns c (since a) (tail a)) as [logs|e] eqn:E.
    + cbn. apply (IH Hcs Hrest).
    + destruct e; try (apply andb_true_iff in S as [Sn Sns];
        destruct n; try discriminate; destruct ns; try discriminate;
        destruct c; try discriminate; rewrite get_logs_strs in E;
        destruct (timed_out _ _ _ _ _); discriminate).
      cbn. destruct (IH Hcs Hrest t (IO (out o) (err o ++
        [s "  WARN: timeout reading logs from " ++ container_key ns n c])))
        as [X Y].
      split; assumption.
  - rewrite G. split; reflexivity.
Qed.

Lemma crashed_raise {A} (e : exn) (o : io) :
  is_error e = true -> crashed (@Raise A e o) o.
Proof. destruct e; try discriminate; intros _; split; reflexivity. Qed.

Lemma getitem_error (j : json) (k : str) (e : exn) :
  getitem j k = Raises e -> is_error e = true.
Proof.
  destruct j; cbn; try (intros H; inversion H; reflexivity).
  destruct (lookup k o); intros H; inversion H; reflexivity.
Qed.

Lemma get_method_error (j : json) (k : str) (d : json) (e : exn) :
  get_method j k d = Raises e -> is_error e = true.
Proof.
  destruct j; cbn; try (intros H; inversion H; reflexivity).
  destruct (lookup k o); discriminate.
Qed.

Lemma py_iter_error (j : json) (e : exn) :
  py_iter j = Raises e -> is_error e = true.
Proof. destruct j; cbn; intros H; inversion H; reflexivity. Qed.

Lemma py_len_error (j : json) (e : exn) :
  py_len j = Raises e -> is_error e = true.
Proof. destruct j; cbn; intros H; inversion H; reflexivity. Qed.

Lemma names_of_error (cs : list json) (e : exn) :
  names_of cs = Raises e -> is_error e = true.
Proof.
  induction cs as [|c cs IH]; cbn [names_of]; [discriminate|].
  destruct (getitem c (s "name")) eqn:G.
  - destruct (names_of cs); [discriminate|].
    intros H; inversion H; subst. now apply IH.
  - intros H; inversion H; subst. eapply getitem_error; eauto.
Qed.

Lemma metadata_error (pod : json) (f : str) (e : exn) :
  metadata pod f = Raises e -> is_error e = true.
Proof.
  unfold metadata. destruct (getitem pod (s "metadata")) eqn:G.
  - apply getitem_error.
  - intros H; inversion H; subst. eapply getitem_error; eauto.
Qed.

Lemma container_names_error (pod : json) (e : exn) :
  container_names pod = Raises e -> is_error e = true.
Proof.
  unfold container_names.
  destruct (get_method pod (s "spec") (JObj [])) as [spec|e1] eqn:G1.
  - destruct (get_method spec (s "containers") (JArr [])) as [cs|e2] eqn:G2.
    + destruct (py_iter cs) as [l|e3] eqn:G3.
      * apply names_of_error.
      * intros H; inversion H; subst. eapply py_iter_error; eauto.
    + intros H; inversion H; subst. eapply get_method_error; eauto.
  - intros H; inversion H; subst. eapply get_method_error; eauto.
Qed.

Lemma strs_map (cs : list json) :
  forallb is_str cs = true -> map JStr (map text_of cs) = cs.
Proof.
  induction cs as [|c cs IH]; cbn; [reflexivity|].
  intros H. apply andb_true_iff in H as [Hc Hcs].
  destruct c; try discriminate. cbn. now rewrite IH.
Qed.

(** A pod that can be read is scanned to the end, whatever the fetches do. *)
Lemma scan_pod_read (w : world) (a : arguments) (pod : json) (p : PodRef)
    (t : tables) (o : io) :
  read_pod pod = Some p ->
  scan_pod w a pod t o
  = Ok (pod_tables w a p t) (IO (out o) (err o ++ pod_warnings w a p)).
Proof.
  unfold read_pod, scan_pod, bind, lift.
  destruct (metadata pod (s "name")) as [n|]; [|discriminate].
  destruct (metadata pod (s "namespace")) as [ns|]; [|discriminate].
  destruct (container_names pod) as [cs|]; [|discriminate].
  unfold ret. destruct cs as [|c cs].
  - intros H; inversion H; subst. cbn. unfold ret. now rewrite io_eta.
  - destruct (is_str n && is_str ns && forallb is_str (c :: cs)) eqn:S;
      [|discriminate].
    intros H; inversion H; subst; clear H.
    apply andb_true_iff in S as [S Scs].
    apply andb_true_iff in S as [Sn Sns].
    destruct n; try discriminate. destruct ns; try discriminate.
    rewrite <- (strs_map _ Scs) at 1. apply scan_containers_strs.
Qed.

(** A pod that cannot be read stops the run. *)
Lemma scan_pod_unread (w : world) (a : arguments) (pod : json)
    (t : tables) (o : io) :
  read_pod pod = None -> crashed (scan_pod w a pod t o) o.
Proof.
  unfold read_pod, scan_pod, bind, lift.
  destruct (metadata pod (s "name")) as [n|e] eqn:Mn;
    [|intros _; apply crashed_raise; eapply metadata_error; eauto].
  destruct (metadata pod (s "namespace")) as [ns|e] eqn:Mns;
    [|intros _; apply crashed_raise; eapply metadata_error; eauto].
  destruct (container_names pod) as [cs|e] eqn:Cs;
    [|intros _; apply crashed_raise; eapply container_names_error; eauto].
  unfold ret. destruct cs as [|c cs]; [discriminate|].
  destruct (is_str n && is_str ns && forallb is_str (c :: cs)) eqn:S;
    [discriminate|].
  intros _. apply scan_containers_not_strs; [discriminate | exact S].
Qed.

Lemma scan_pods_read (w : world) (a : arguments) (pods : list json) :
  forall (ps : list PodRef) (t : tables) (o : io),
    read_pods pods = Some ps ->
    scan_pods w a pods t o
    = Ok (pods_tables w a ps t)
         (IO (out o) (err o ++ flat_map (pod_warnings w a) ps)).
Proof.
  unfold pods_tables.
  induction pods as [|pod pods IH]; intros ps t o; cbn [read_pods scan_pods].
  - intros H; inversion H; subst. cbn. unfold ret. now rewrite io_eta.
  - destruct (read_pod pod) as [p|] eqn:P; [|discriminate].
    destruct (read_pods pods) as [ps'|]; [|discriminate].
    intros H; inversion H; subst; clear H.
    unfold bind. rewrite (scan_pod_read w a pod t o P).
    rewrite (IH ps' _ _ eq_refl). cbn [fold_left flat_map out err].
    now rewrite app_assoc.
Qed.

Lemma scan_pods_unread (w : world) (a : arguments) (pods : list json) :
  forall (t : tables) (o : io),
    read_pods pods = None -> crashed (scan_pods w a pods t o) o.
Proof.
  induction pods as [|pod pods IH]; intros t o; cbn [read_pods scan_pods];
    [discriminate|].
  unfold bind. destruct (read_pod pod) as [p|] eqn:P.
  - destruct (read_pods pods) eqn:Ps; [discriminate|]. intros _.
    rewrite (scan_pod_read w a pod t o P).
    destruct (IH (pod_tables w a p t)
                 (IO (out o) (err o ++ pod_warnings w a p)) eq_refl)
      as [X Y].
    split; assumption.
  - intros _. destruct (scan_pod_unread w a pod t o P) as [X Y].
    destruct (scan_pod w a pod t o); [discriminate X|].
    split; assumption.
Qed.

(** ** The whole run *)

Lemma get_pods_cmd_args (namespace : option str) :
  cmd_args (get_pods_cmd namespace) = Returns (get_pods_argv namespace).
Proof.
  unfold get_pods_cmd, get_pods_argv.
  destruct (truthy namespace); reflexivity.
Qed.

Lemma py_len_iter (j : json) (l : list json) :
  py_iter j = Returns l -> py_len j = Returns (length l).
Proof.
  destruct j; cbn; intros H; inversion H; subst;
    now rewrite ?length_map.
Qed.

Lemma read_pods_length (pods : list json) :
  forall ps, read_pods pods = Some ps -> length ps = length pods.
Proof.
  induction pods as [|pod pods IH]; intros ps; cbn [read_pods].
  - intros H; inversion H; reflexivity.
  - destruct (read_pod pod); [|discriminate].
    destruct (read_pods pods); [|discriminate].
    intros H; inversion H; subst. cbn. now rewrite (IH _ eq_refl).
Qed.

Lemma print_all_out (xs : list str) :
  forall o, print_all xs o = Ok tt (IO (out o ++ xs) (err o)).
Proof.
  induction xs as [|x xs IH]; intros o; cbn [print_all].
  - unfold ret. destruct o; cbn. now rewrite app_nil_r.
  - unfold bind, print. rewrite IH. cbn. now rewrite <- app_assoc.
Qed.

(** What [main] prints once the scan is over. *)
Lemma render_out (t : tables) (o : io) :
  render t o
  = Ok tt (IO (out o ++ match fst t with
                        | [] => [s "No connectivity errors found."]
                        | _ :: _ => report t
                        end)
              (err o)).
Proof.
  unfold render. destruct (fst t); [reflexivity | apply print_all_out].
Qed.

(** The pod list command failed: the error message, then [sys.exit(1)]. *)
Lemma main_listing_failed (w : world) (a : arguments) :
  listing_failed w a ->
  main w a io0
  = Raise (SystemExit 1)
      (IO [] [s "ERROR: kubectl get pods failed: " ++ stderr (listing w a)]).
Proof.
  unfold listing_failed, main, collect, get_pods, bind, lift, subprocess_run.
  rewrite get_pods_cmd_args. fold (listing w a). unfold ret. intros H.
  destruct (Z.eqb_spec (returncode (listing w a)) 0); [contradiction|].
  reflexivity.
Qed.

(** The pod list was read: the header, the scan of every pod, the report. *)
Lemma collect_listed (w : world) (a : arguments) (ps : list PodRef) :
  listed_pods w a = Some ps ->
  collect w a io0
  = Ok (pods_tables w a ps ([], []))
       (IO [scanning_line (length ps) a] (flat_map (pod_warnings w a) ps)).
Proof.
  unfold listed_pods, collect, get_pods, bind, lift, subprocess_run.
  rewrite get_pods_cmd_args. fold (listing w a). unfold ret.
  destruct (returncode (listing w a) =? 0)%Z; [|discriminate]. cbn [negb].
  destruct (json_loads w (stdout (listing w a))) as [j|]; [|discriminate].
  unfold read_listing.
  destruct (getitem j (s "items")) as [items|]; [|discriminate].
  destruct (py_iter items) as [pods|] eqn:I; [|discriminate].
  intros R. rewrite (py_len_iter _ I). unfold print. cbn [io0 out err app].
  rewrite (scan_pods_read w a pods _ _ R). cbn [out err app].
  now rewrite (read_pods_length _ R).
Qed.

(** The pod list command succeeded but its output could not be read: the
    run stops on an exception. *)
Lemma collect_unreadable (w : world) (a : arguments) :
  ~ listing_failed w a -> listing_unreadable w a ->
  exit_status (collect w a io0) = 1%Z.
Proof.
  unfold listing_failed, listing_unreadable, collect, get_pods, bind, lift,
    subprocess_run.
  rewrite get_pods_cmd_args. fold (listing w a). unfold ret. intros F.
  destruct (Z.eqb_spec (returncode (listing w a)) 0); [|contradiction].
  cbn [negb].
  destruct (json_loads w (stdout (listing w a))) as [j|]; [|reflexivity].
  unfold read_listing.
  destruct (getitem j (s "items")) as [items|e1] eqn:G;
    [|intros _; refine (proj1 (@crashed_raise tables e1 io0 _));
      eapply getitem_error; eauto].
  destruct (py_iter items) as [pods|e2] eqn:I.
  - intros R. rewrite (py_len_iter _ I). unfold print.
    apply (proj1 (scan_pods_unread w a pods _ _ R)).
  - intros _. destruct (py_len items) as [n|e3] eqn:L.
    + destruct items; discriminate.
    + refine (proj1 (@crashed_raise tables e3 io0 _)).
      eapply py_len_error; eauto.
Qed.

Lemma listed_pods_none (w : world) (a : arguments) :
  listed_pods w a = None <-> listing_failed w a \/ listing_unreadable w a.
Proof.
  unfold listed_pods, listing_failed, listing_unreadable.
  destruct (Z.eqb_spec (returncode (listing w a)) 0) as [E|E].
  - destruct (json_loads w (stdout (listing w a))).
    + split; [auto | intros [H|H]; [contradiction | assumption]].
    + split; [intros _; right; exact I | reflexivity].
  - split; auto.
Qed.

Lemma exit_status_bind {A B} (m : M A) (f : A -> M B) (o : io) :
  (forall x o', exit_status (f x o') = 0%Z) ->
  exit_status (bind m f o) = exit_status (m o).
Proof.
  intros H. unfold bind. destruct (m o); [apply H | reflexivity].
Qed.

Lemma main_status (w : world) (a : arguments) :
  exit_status (main w a io0) = exit_status (collect w a io0).
Proof.
  unfold main. apply exit_status_bind. intros t o. now rewrite render_out.
Qed.

(** In a world of parsed arguments and text, the exit status is nonzero
    exactly when the pod list command returned a nonzero code or [main]
    could not read its output; it is then 1. *)
Theorem exit_status_nonzero (w : world) (a : arguments) :
  (status (run w a) <> 0%Z <-> listing_failed w a \/ listing_unreadable w a)
  /\ (listing_failed w a \/ listing_unreadable w a -> status (run w a) = 1%Z)
  /\ (forall ps, listed_pods w a = Some ps -> status (run w a) = 0%Z).
Proof.
  assert (Bad : listing_failed w a \/ listing_unreadable w a ->
                status (run w a) = 1%Z).
  { unfold run. cbn [status]. fold io0. intros H.
    destruct (Z.eq_dec (returncode (listing w a)) 0) as [E|E].
    - destruct H as [H|H]; [contradiction|].
      rewrite main_status. apply collect_unreadable; [|assumption].
      intros F. apply F, E.
    - now rewrite (main_listing_failed E). }
  assert (Good : forall ps, listed_pods w a = Some ps ->
                            status (run w a) = 0%Z).
  { intros ps H. unfold run. cbn [status]. fold io0.
    rewrite main_status, (collect_listed _ _ H). reflexivity. }
  split; [|split; assumption].
  split.
  - intros H. apply listed_pods_none.
    destruct (listed_pods w a) as [ps|] eqn:L; [|reflexivity].
    elim H. eauto.
  - intros H. rewrite (Bad H). discriminate.
Qed.

Lemma exit_status_nonzero_witness :
  status (run broken_world sample_args) = 1%Z
  /\ status (run noisy_world sample_args) = 0%Z.
Proof.
  split.
  - apply (proj1 (proj2 (exit_status_nonzero broken_world sample_args))).
    left. unfold listing_failed. vm_compute. discriminate.
  - destruct (exit_status_nonzero noisy_world sample_args) as (_ & _ & H).
    eapply H. vm_compute. reflexivity.
Defined.

(** ** Runs without findings *)

Lemma pod_tables_no_hits (w : world) (a : arguments) (n ns : str)
    (cs : list str) (t : tables) :
  Forall (fun hits => hits = []) (map (container_hits w a n ns) cs) ->
  pod_tables w a (Pod n ns cs) t = t.
Proof.
  unfold pod_tables. cbn [pod_name pod_namespace pod_containers].
  induction cs as [|c cs IH]; cbn [map fold_left]; [reflexivity|].
  intros H. inversion H as [|? ? Hc Hcs]; subst. rewrite Hc. cbn. auto.
Qed.

Lemma pods_tables_no_hits (w : world) (a : arguments) (ps : list PodRef)
    (t : tables) :
  Forall (fun hits => hits = []) (pods_hits w a ps) ->
  pods_tables w a ps t = t.
Proof.
  unfold pods_tables, pods_hits.
  induction ps as [|[n ns cs] ps IH]; cbn [flat_map fold_left];
    [reflexivity|].
  cbn [pod_name pod_namespace pod_containers].
  intros H. apply Forall_app in H as [Hp Hps].
  rewrite (pod_tables_no_hits _ _ _ _ _ _ Hp). auto.
Qed.

(** C1, as the code behaves.  In a run whose pod list was read and in which
    no container has a hit, the findings are empty, the standard output is
    the header line [Scanning N pods (since=..., tail=...)...], an empty
    line and the line [No connectivity errors found.], nothing else, and the
    exit status is 0. *)
Theorem no_findings_output (w : world) (a : arguments) (ps : list PodRef) :
  listed_pods w a = Some ps ->
  Forall (fun hits => hits = []) (pods_hits w a ps) ->
  (exists o, collect w a io0 = Ok ([], []) o)
  /\ stdout_text (run w a)
     = s "Scanning " ++ str_of_nat (length ps) ++ s " pods (since="
       ++ since a ++ s ", tail=" ++ str_of_Z (tail a) ++ s ")..."
       ++ [NL] ++ [NL]
       ++ s "No connectivity errors found." ++ [NL]
  /\ status (run w a) = 0%Z.
Proof.
  intros L Q. pose proof (collect_listed _ _ L) as C.
  rewrite (pods_tables_no_hits _ _ _ _ Q) in C.
  split; [eauto|]. unfold run. fold io0. unfold main, bind. rewrite C.
  rewrite render_out. cbn [fst printed out err exit_status stdout_text status].
  split; [|reflexivity].
  unfold text, scanning_line. cbn [app flat_map].
  rewrite app_nil_r. repeat rewrite <- app_assoc. reflexivity.
Qed.

Lemma no_findings_output_witness :
  stdout_text (run quiet_world sample_args)
  = s "Scanning 1 pods (since=1h, tail=500)..." ++ [NL] ++ [NL]
    ++ s "No connectivity errors found." ++ [NL]
  /\ status (run quiet_world sample_args) = 0%Z.
Proof.
  assert (L : listed_pods quiet_world sample_args
              = Some [Pod (s "api") (s "web") [s "app"; s "slow"]])
    by (vm_compute; reflexivity).
  assert (Q : Forall (fun hits : list str => hits = [])
                (pods_hits quiet_world sample_args
                   [Pod (s "api") (s "web") [s "app"; s "slow"]]))
    by (vm_compute; repeat constructor).
  destruct (no_findings_output _ _ L Q) as (_ & H1 & H2).
  split; [exact H1 | exact H2].
Defined.

(** C1 as stated fails: a run without findings whose standard output is not
    the single line. *)
Lemma no_findings_output_not_one_line :
  listed_pods quiet_world sample_args
  = Some [Pod (s "api") (s "web") [s "app"; s "slow"]]
  /\ pods_hits quiet_world sample_args
       [Pod (s "api") (s "web") [s "app"; s "slow"]] = [[]; []]
  /\ ~ (stdout_text (run quiet_world sample_args)
        = s "No connectivity errors found." ++ [NL])
  /\ ~ (stdout_text (run quiet_world sample_args)
        = s "No connectivity errors found.").
Proof.
  repeat split; try (vm_compute; reflexivity); vm_compute; discriminate.
Qed.

(** ** Fetches that time out or fail *)

Lemma pod_tables_app (w : world) (a : arguments) (n ns : str)
    (cs1 cs2 : list str) (t : tables) :
  pod_tables w a (Pod n ns (cs1 ++ cs2)) t
  = pod_tables w a (Pod n ns cs2) (pod_tables w a (Pod n ns cs1) t).
Proof. unfold pod_tables. cbn. apply fold_left_app. Qed.

(** The outcome of a run whose pod list was read. *)
Lemma run_listed (w : world) (a : arguments) (ps : list PodRef) :
  listed_pods w a = Some ps ->
  run w a
  = Outcome
      (text (scanning_line (length ps) a
             :: match fst (pods_tables w a ps ([], [])) with
                | [] => [s "No connectivity errors found."]
                | _ :: _ => report (pods_tables w a ps ([], []))
                end))
      (flat_map (pod_warnings w a) ps)
      0.
Proof.
  intros L. unfold run. fold io0. unfold main, bind.
  rewrite (collect_listed _ _ L), render_out. reflexivity.
Qed.

(** C8.  When the fetch of a container takes more than 30 units, [get_logs]
    raises the timeout, [main] writes one warning to standard error, leaves
    its tables as they were and goes on with the next container; the tables
    and the standard output after the container list are those of the list
    without that container. *)
Theorem fetch_timeout_skips (w : world) (a : arguments) (n ns c : str) :
  30 < elapsed (log_process w a n ns c) ->
  get_logs w (JStr n) (JStr ns) (JStr c) (since a) (tail a)
  = Raises TimeoutExpired
  /\ container_hits w a n ns c = []
  /\ (forall t o,
        scan_container w a (JStr n) (JStr ns) (JStr c) t o
        = Ok t (IO (out o)
                   (err o ++ [s "  WARN: timeout reading logs from "
                              ++ ns ++ s "/" ++ n ++ s "/" ++ c])))
  /\ (forall rest t o,
        scan_containers w a (JStr n) (JStr ns) (JStr c :: rest) t o
        = scan_containers w a (JStr n) (JStr ns) rest t
            (IO (out o)
                (err o ++ [s "  WARN: timeout reading logs from "
                           ++ ns ++ s "/" ++ n ++ s "/" ++ c])))
  /\ (forall cs1 cs2 t o,
        exists t' o1 o2,
          scan_containers w a (JStr n) (JStr ns)
            (map JStr (cs1 ++ c :: cs2)) t o = Ok t' o1
          /\ scan_containers w a (JStr n) (JStr ns)
               (map JStr (cs1 ++ cs2)) t o = Ok t' o2
          /\ out o1 = out o2)
  /\ (forall ps cs,
        listed_pods w a = Some ps ->
        In (Pod n ns cs) ps -> In c cs ->
        In (s "  WARN: timeout reading logs from "
            ++ ns ++ s "/" ++ n ++ s "/" ++ c)
           (warnings (run w a))
        /\ status (run w a) = 0%Z).
Proof.
  intros H.
  assert (T : timed_out w a n ns c = true).
  { unfold timed_out. now apply Nat.ltb_lt. }
  assert (Hh : container_hits w a n ns c = []).
  { unfold container_hits. now rewrite T. }
  assert (S : forall t o,
             scan_container w a (JStr n) (JStr ns) (JStr c) t o
             = Ok t (IO (out o)
                        (err o ++ [s "  WARN: timeout reading logs from "
                                   ++ ns ++ s "/" ++ n ++ s "/" ++ c]))).
  { intros t o. rewrite scan_container_strs, T, Hh. reflexivity. }
  split; [rewrite get_logs_strs, T; reflexivity|].
  split; [exact Hh|]. split; [exact S|]. split; [|split].
  - intros rest t o. cbn [scan_containers]. unfold bind. now rewrite S.
  - intros cs1 cs2 t o. rewrite !scan_containers_strs.
    assert (E : pod_tables w a (Pod n ns (cs1 ++ c :: cs2)) t
                = pod_tables w a (Pod n ns (cs1 ++ cs2)) t).
    { rewrite !pod_tables_app. unfold pod_tables at 1 3.
      cbn [pod_name pod_namespace pod_containers fold_left].
      now rewrite Hh. }
    rewrite E. do 3 eexists.
    split; [reflexivity|]. split; reflexivity.
  - intros ps cs L Hp Hc. rewrite (run_listed _ _ L).
    cbn [warnings status]. split; [|reflexivity].
    apply in_flat_map. exists (Pod n ns cs). split; [exact Hp|].
    unfold pod_warnings. cbn [pod_name pod_namespace pod_containers].
    apply in_flat_map. exists c. split; [exact Hc|].
    rewrite T. left. reflexivity.
Qed.

Lemma fetch_timeout_skips_witness :
  scan_container noisy_world sample_args
    (JStr (s "api")) (JStr (s "web")) (JStr (s "slow")) ([], []) io0
  = Ok ([], [])
       (IO [] [s "  WARN: timeout reading logs from web/api/slow"]).
Proof.
  assert (H : 30 < elapsed (log_process noisy_world sample_args
                              (s "api") (s "web") (s "slow")))
    by (vm_compute; lia).
  destruct (fetch_timeout_skips noisy_world sample_args
              (s "api") (s "web") (s "slow") H) as (_ & _ & S & _ & _ & _).
  apply S.
Defined.



(** ** Dictionaries of counts *)

Section DictFacts.

Lemma count_add (k k' : str) (n : nat) (d : dict nat) :
  Dict.count k (Dict.add k' n d)
  = Dict.count k d + (if str_eqb k k' then n else 0).
Proof.
  unfold Dict.count.
  induction d as [|[k0 v] d IH]; cbn [Dict.add Dict.get].
  - destruct (str_eqb k k'); reflexivity.
  - destruct (str_eqb k' k0) eqn:E'; cbn [Dict.get].
    + apply str_eqb_eq in E'; subst k0.
      destruct (str_eqb k k'); lia.
    + destruct (str_eqb k k0) eqn:E; [|exact IH].
      apply str_eqb_eq in E; subst k0.
      rewrite str_eqb_sym, E'. lia.
Qed.

Lemma keys_add (k x : str) (n : nat) (d : dict nat) :
  In x (Dict.keys (Dict.add k n d)) <-> x = k \/ In x (Dict.keys d).
Proof.
  unfold Dict.keys.
  induction d as [|[k0 v] d IH]; cbn [Dict.add map In fst].
  - intuition.
  - destruct (str_eqb k k0) eqn:E; cbn [map In fst].
    + apply str_eqb_eq in E; subst. intuition.
    + rewrite IH. intuition.
Qed.

Lemma keys_add_nodup (k : str) (n : nat) (d : dict nat) :
  NoDup (Dict.keys d) -> NoDup (Dict.keys (Dict.add k n d)).
Proof.
  unfold Dict.keys.
  induction d as [|[k0 v] d IH]; cbn [Dict.add map fst]; intros H.
  - constructor; [intros [] | constructor].
  - inversion H as [|? ? Hin Hd]; subst.
    destruct (str_eqb k k0) eqn:E; cbn [map fst].
    + constructor; assumption.
    + constructor; [|auto].
      intros X. apply (keys_add k k0 n d) in X as [X|X]; [|contradiction].
      subst. now rewrite str_eqb_refl in E.
Qed.

Lemma total_cons (k k0 : str) (v : nat) (d : dict nat) :
  total k ((k0, v) :: d) = (if str_eqb k k0 then v else 0) + total k d.
Proof. reflexivity. Qed.

Lemma count_cons (k k0 : str) (v : nat) (d : dict nat) :
  Dict.count k ((k0, v) :: d)
  = if str_eqb k k0 then v else Dict.count k d.
Proof. unfold Dict.count. cbn [Dict.get]. now destruct (str_eqb k k0). Qed.

Lemma count_absent (k : str) (d : dict nat) :
  ~ In k (Dict.keys d) -> Dict.count k d = 0 /\ total k d = 0.
Proof.
  unfold Dict.keys.
  induction d as [|[k0 v] d IH]; intros H; [split; reflexivity|].
  cbn [map In fst] in H.
  destruct IH as [IH1 IH2]; [tauto|].
  assert (E : str_eqb k k0 = false).
  { apply str_eqb_neq. intros ->. tauto. }
  rewrite total_cons, count_cons, E, IH2. split; [exact IH1 | reflexivity].
Qed.

(** With distinct keys, the sum over the items is the count of the key. *)
Lemma total_count (k : str) (d : dict nat) :
  NoDup (Dict.keys d) -> total k d = Dict.count k d.
Proof.
  unfold Dict.keys.
  induction d as [|[k0 v] d IH]; intros H; [reflexivity|].
  inversion H as [|? ? Hin Hd]; subst.
  rewrite total_cons, count_cons.
  destruct (str_eqb k k0) eqn:E.
  - apply str_eqb_eq in E; subst k0.
    destruct (count_absent k d Hin) as [_ T]. rewrite T. lia.
  - now rewrite IH.
Qed.

Lemma count_merge_items (ep : str) (items : list (str * nat)) :
  forall all : dict nat,
    Dict.count ep (merge_items items all)
    = Dict.count ep all + total ep items.
Proof.
  induction items as [|[k v] items IH]; intros all; cbn [merge_items].
  - unfold total. cbn. lia.
  - rewrite IH, count_add, total_cons. lia.
Qed.

End DictFacts.

Lemma extract_line_nodup (regexes : list pattern) (line : str)
    (d : dict nat) :
  NoDup (Dict.keys d) -> NoDup (Dict.keys (extract_line regexes line d)).
Proof.
  induction regexes as [|r rs IH]; cbn [extract_line]; [auto|].
  destruct (search r line) as [[g|]|]; auto using keys_add_nodup.
Qed.

Lemma extract_lines_nodup (hits : list str) :
  forall d, NoDup (Dict.keys d) -> NoDup (Dict.keys (extract_lines hits d)).
Proof.
  induction hits as [|h hits IH]; intros d H; cbn [extract_lines]; [auto|].
  apply IH, extract_line_nodup, H.
Qed.

(** The table [extract_endpoints] returns has distinct keys. *)
Lemma extract_endpoints_nodup (hits : list str) :
  NoDup (Dict.keys (extract_endpoints hits)).
Proof. apply extract_lines_nodup. constructor. Qed.

(** ** Aggregation *)

Lemma count_aggregate (ep : str) (hs : list (list str)) :
  forall all : dict nat,
    Dict.count ep (aggregate hs all)
    = Dict.count ep all
      + list_sum (map (fun hits => Dict.count ep (extract_endpoints hits)) hs).
Proof.
  unfold aggregate.
  induction hs as [|h hs IH]; intros all; cbn [fold_left map].
  - cbn. lia.
  - rewrite IH, count_merge_items.
    rewrite (@total_count ep _ (extract_endpoints_nodup h)).
    change (list_sum (?x :: ?l)) with (x + list_sum l). lia.
Qed.

Lemma list_sum_perm (l l' : list nat) :
  Permutation l l' -> list_sum l = list_sum l'.
Proof.
  induction 1 as [|x l l' _ IH|x y l|l l' l'' _ IH1 _ IH2].
  - reflexivity.
  - change (x + list_sum l = x + list_sum l'). lia.
  - change (y + (x + list_sum l) = x + (y + list_sum l)). lia.
  - congruence.
Qed.

Lemma snd_record_hits (key : str) (hits : list str) (t : tables) :
  snd (record_hits key hits t)
  = merge_items (extract_endpoints hits) (snd t).
Proof. destruct hits; reflexivity. Qed.

Lemma snd_pod_tables (w : world) (a : arguments) (p : PodRef) (t : tables) :
  snd (pod_tables w a p t)
  = aggregate
      (map (container_hits w a (pod_name p) (pod_namespace p))
         (pod_containers p))
      (snd t).
Proof.
  unfold pod_tables, aggregate.
  revert t. induction (pod_containers p) as [|c cs IH]; intros t;
    cbn [fold_left map]; [reflexivity|].
  now rewrite IH, snd_record_hits.
Qed.

Lemma snd_pods_tables (w : world) (a : arguments) (ps : list PodRef) :
  forall t : tables,
    snd (pods_tables w a ps t) = aggregate (pods_hits w a ps) (snd t).
Proof.
  unfold pods_tables, pods_hits.
  induction ps as [|p ps IH]; intros t; cbn [fold_left flat_map];
    [reflexivity|].
  rewrite IH, snd_pod_tables. unfold aggregate. now rewrite fold_left_app.
Qed.

(** C4.  The tally built by adding, container after container, the counts
    of [extract_endpoints] gives every endpoint the sum of its per-container
    counts; so the counts are the same for any order of the containers; and
    [all_endpoints] at the end of the scan of a run is that tally for the
    hit lists of the containers of the run. *)
Theorem tally_is_sum :
  (forall (hs : list (list str)) (ep : str),
      Dict.count ep (aggregate hs [])
      = list_sum
          (map (fun hits => Dict.count ep (extract_endpoints hits)) hs))
  /\ (forall (hs hs' : list (list str)) (ep : str),
         Permutation hs hs' ->
         Dict.count ep (aggregate hs []) = Dict.count ep (aggregate hs' []))
  /\ (forall (w : world) (a : arguments) (ps : list PodRef),
         listed_pods w a = Some ps ->
         exists t o,
           collect w a io0 = Ok t o
           /\ snd t = aggregate (pods_hits w a ps) []
           /\ forall ep,
                Dict.count ep (snd t)
                = list_sum
                    (map (fun hits => Dict.count ep (extract_endpoints hits))
                       (pods_hits w a ps))).
Proof.
  assert (Sum : forall hs ep,
             Dict.count ep (aggregate hs [])
             = list_sum
                 (map (fun hits => Dict.count ep (extract_endpoints hits))
                    hs)).
  { intros hs ep. now rewrite count_aggregate. }
  split; [exact Sum|]. split.
  - intros hs hs' ep P. rewrite !Sum.
    apply list_sum_perm, Permutation_map, P.
  - intros w a ps L. do 2 eexists.
    split; [apply collect_listed, L|].
    rewrite snd_pods_tables. cbn [snd]. split; [reflexivity|].
    intros ep. apply Sum.
Qed.

Lemma tally_is_sum_witness :
  Dict.count (s "10.0.0.5:443")
    (aggregate [[dial_line; dial_line]; [failed_line]; [dial_line]] [])
  = Dict.count (s "10.0.0.5:443")
      (aggregate [[dial_line]; [dial_line; dial_line]; [failed_line]] [])
  /\ exists t o,
       collect noisy_world sample_args io0 = Ok t o
       /\ Dict.count (s "10.0.0.5:443") (snd t) = 2.
Proof.
  destruct tally_is_sum as (_ & P & R). split.
  - apply P.
    eapply perm_trans; [apply perm_skip, perm_swap | apply perm_swap].
  - destruct (R noisy_world sample_args
               [ Pod (s "api") (s "web") [s "app"; s "slow"; s "down"];
                 Pod (s "pg") (s "db") [s "main"] ])
      as (t & o & C & _ & S).
    + vm_compute. reflexivity.
    + exists t, o. split; [exact C|]. rewrite S. vm_compute. reflexivity.
Defined.

(** ** The order of strings *)

Lemma code_inj (x y : ascii) : code x = code y -> x = y.
Proof.
  unfold code. intros H.
  rewrite <- (ascii_nat_embedding x), <- (ascii_nat_embedding y).
  now rewrite H.
Qed.

Lemma str_ltb_irrefl (a : str) : str_ltb a a = false.
Proof.
  induction a as [|x a IH]; cbn [str_ltb]; [reflexivity|].
  now rewrite Nat.ltb_irrefl.
Qed.

Lemma str_ltb_trans (a : str) :
  forall b c, str_ltb a b = true -> str_ltb b c = true -> str_ltb a c = true.
Proof.
  induction a as [|x a IH]; intros [|y b] [|z c]; cbn [str_ltb];
    try discriminate; try reflexivity.
  destruct (Nat.ltb_spec (code x) (code y)), (Nat.ltb_spec (code y) (code x)),
    (Nat.ltb_spec (code y) (code z)), (Nat.ltb_spec (code z) (code y)),
    (Nat.ltb_spec (code x) (code z)), (Nat.ltb_spec (code z) (code x));
    try discriminate; try reflexivity; try lia.
  apply IH.
Qed.

Lemma str_ltb_connex (a : str) :
  forall b, str_ltb a b = false -> str_ltb b a = false -> a = b.
Proof.
  induction a as [|x a IH]; intros [|y b]; cbn [str_ltb];
    try discriminate; try reflexivity.
  destruct (Nat.ltb_spec (code x) (code y)), (Nat.ltb_spec (code y) (code x));
    try discriminate.
  intros H1 H2. f_equal; [apply code_inj; lia | now apply IH].
Qed.

Lemma str_ltb_asym (a b : str) : str_ltb a b = true -> str_ltb b a = false.
Proof.
  intros H. destruct (str_ltb b a) eqn:E; [|reflexivity].
  rewrite <- (str_ltb_irrefl a). symmetry. eapply str_ltb_trans; eauto.
Qed.

Lemma str_leb_total (a b : str) : str_leb a b = false -> str_leb b a = true.
Proof.
  unfold str_leb. intros H. apply negb_false_iff in H.
  now rewrite (str_ltb_asym _ _ H).
Qed.

Lemma str_leb_trans (a b c : str) :
  str_leb a b = true -> str_leb b c = true -> str_leb a c = true.
Proof.
  unfold str_leb. intros H1 H2.
  apply negb_true_iff in H1. apply negb_true_iff in H2. apply negb_true_iff.
  destruct (str_ltb c a) eqn:E; [|reflexivity].
  destruct (str_ltb a b) eqn:F.
  - rewrite <- H2. symmetry. eapply str_ltb_trans; eauto.
  - rewrite (str_ltb_connex _ _ F H1) in E. congruence.
Qed.

Lemma str_leb_lt (a b : str) :
  str_leb a b = true -> a <> b -> str_ltb a b = true.
Proof.
  unfold str_leb. intros H N. apply negb_true_iff in H.
  destruct (str_ltb a b) eqn:E; [reflexivity|].
  elim N. now apply str_ltb_connex.
Qed.

(** ** Sorting *)

Section SortedFacts.
Variable A : Type.
Variable le : A -> A -> bool.
Hypothesis le_total : forall x y, le x y = false -> le y x = true.
Hypothesis le_trans :
  forall x y z, le x y = true -> le y z = true -> le x z = true.

Lemma insert_perm (x : A) (l : list A) :
  Permutation (insert le x l) (x :: l).
Proof.
  induction l as [|y l IH]; cbn [insert]; [reflexivity|].
  destruct (le x y); [reflexivity|].
  rewrite IH. apply perm_swap.
Qed.

Lemma sorted_perm (l : list A) : Permutation (sorted le l) l.
Proof.
  induction l as [|x l IH]; cbn [sorted fold_right]; [reflexivity|].
  fold (sorted le l). rewrite insert_perm. now apply perm_skip.
Qed.

Lemma insert_sorted (x : A) (l : list A) :
  StronglySorted (fun a b => le a b = true) l ->
  StronglySorted (fun a b => le a b = true) (insert le x l).
Proof.
  induction l as [|y l IH]; cbn [insert]; intros H.
  - constructor; constructor.
  - inversion H as [|? ? Hl Hy]; subst.
    destruct (le x y) eqn:E.
    + constructor; [exact H|]. constructor; [exact E|].
      eapply Forall_impl; [|exact Hy]. intros z Hz. eapply le_trans; eauto.
    + constructor; [auto|].
      eapply Permutation_Forall; [symmetry; apply insert_perm|].
      constructor; [apply le_total, E | exact Hy].
Qed.

Lemma sorted_sorted (l : list A) :
  StronglySorted (fun a b => le a b = true) (sorted le l).
Proof.
  induction l as [|x l IH]; cbn [sorted fold_right]; [constructor|].
  now apply insert_sorted.
Qed.
End SortedFacts.

Lemma StronglySorted_weaken (A : Type) (R R' : A -> A -> Prop)
    (l : list A) :
  (forall x y, R x y -> R' x y) -> StronglySorted R l -> StronglySorted R' l.
Proof.
  intros W. induction 1 as [|x l S IH F]; constructor; [exact IH|].
  eapply Forall_impl; [|exact F]. intros y. apply W.
Qed.

Lemma by_neg_count_total (x y : str * nat) :
  by_neg_count x y = false -> by_neg_count y x = true.
Proof.
  unfold by_neg_count. intros H. apply Nat.leb_gt in H. apply Nat.leb_le. lia.
Qed.

Lemma by_neg_count_trans (x y z : str * nat) :
  by_neg_count x y = true -> by_neg_count y z = true ->
  by_neg_count x z = true.
Proof.
  unfold by_neg_count. rewrite !Nat.leb_le. lia.
Qed.

Lemma by_key_total (x y : str * list str) :
  by_key x y = false -> by_key y x = true.
Proof. apply str_leb_total. Qed.

Lemma by_key_trans (x y z : str * list str) :
  by_key x y = true -> by_key y z = true -> by_key x z = true.
Proof. apply str_leb_trans. Qed.

(** ** Reporter: the detail of a container *)

Lemma count_count_lines (line : str) (hits : list str) :
  forall d : dict nat,
    Dict.count line (count_lines hits d)
    = Dict.count line d + count_occ str_eq_dec hits line.
Proof.
  induction hits as [|h hits IH]; intros d; cbn [count_lines count_occ];
    [lia|].
  rewrite IH, count_add.
  destruct (str_eq_dec h line) as [->|N].
  - rewrite str_eqb_refl. lia.
  - assert (E : str_eqb line h = false) by (apply str_eqb_neq; congruence).
    rewrite E. lia.
Qed.

Lemma keys_count_lines (line : str) (hits : list str) :
  forall d : dict nat,
    In line (Dict.keys (count_lines hits d))
    <-> In line hits \/ In line (Dict.keys d).
Proof.
  induction hits as [|h hits IH]; intros d; cbn [count_lines In].
  - tauto.
  - rewrite IH, keys_add. intuition.
Qed.

Lemma count_lines_nodup (hits : list str) :
  forall d : dict nat,
    NoDup (Dict.keys d) -> NoDup (Dict.keys (count_lines hits d)).
Proof.
  induction hits as [|h hits IH]; intros d H; cbn [count_lines]; [auto|].
  apply IH, keys_add_nodup, H.
Qed.

(** The table has one entry for each distinct line. *)
Lemma count_lines_length (hits : list str) :
  length (count_lines hits []) = length (nodup str_eq_dec hits).
Proof.
  rewrite <- (length_map fst). apply Permutation_length.
  apply NoDup_Permutation.
  - apply (count_lines_nodup hits []). constructor.
  - apply NoDup_nodup.
  - intros x. fold (Dict.keys (count_lines hits [])).
    rewrite keys_count_lines, nodup_In. cbn. tauto.
Qed.

Lemma sorted_by_key_strict (findings : dict (list str)) :
  NoDup (Dict.keys findings) ->
  StronglySorted (fun x y => str_ltb (fst x) (fst y) = true)
    (sorted by_key findings).
Proof.
  intros N.
  assert (N' : NoDup (map fst (sorted by_key findings))).
  { eapply Permutation_NoDup; [|exact N].
    apply Permutation_map. symmetry. apply sorted_perm. }
  pose proof (sorted_sorted by_key by_key_total by_key_trans findings) as S.
  induction S as [|x l S IH F]; [constructor|].
  cbn [map] in N'. inversion N' as [|? ? Hx Hl]; subst.
  constructor; [auto|].
  rewrite Forall_forall in *. intros y Hy.
  apply str_leb_lt; [apply F, Hy|].
  intros E. apply Hx. rewrite E. now apply in_map.
Qed.

(** C6.  The detail part of the report goes through the containers in
    ascending order of their keys [namespace/pod/container].  For each
    container the hit lines are counted into one (line, count) pair per
    distinct line, the pairs are put in descending order of count, the first
    five are shown, and when there are more than five a last line tells how
    many are left.  With 8 distinct lines: the key, 5 lines, and the notice
    that 3 more are left. *)
Theorem detail_report (findings : dict (list str)) (all : dict nat)
    (key : str) (hits : list str) :
  (exists head,
      report (findings, all)
      = head ++ flat_map detail_block (sorted by_key findings))
  /\ Permutation (sorted by_key findings) findings
  /\ StronglySorted (fun x y => str_leb (fst x) (fst y) = true)
       (sorted by_key findings)
  /\ (NoDup (Dict.keys findings) ->
      StronglySorted (fun x y => str_ltb (fst x) (fst y) = true)
        (sorted by_key findings))
  /\ NoDup (Dict.keys (count_lines hits []))
  /\ (forall line,
         Dict.count line (count_lines hits [])
         = count_occ str_eq_dec hits line)
  /\ (forall line, In line (Dict.keys (count_lines hits [])) <-> In line hits)
  /\ Permutation (sorted by_neg_count (count_lines hits []))
       (count_lines hits [])
  /\ StronglySorted (fun x y => snd y <= snd x)
       (sorted by_neg_count (count_lines hits []))
  /\ detail_block (key, hits)
     = [ [NL] ++ s "  " ++ key ++ s ":" ]
       ++ map detail_line
            (firstn 5 (sorted by_neg_count (count_lines hits [])))
       ++ (if 5 <? length (nodup str_eq_dec hits)
           then [ s "    ... and "
                  ++ str_of_nat (length (nodup str_eq_dec hits) - 5)
                  ++ s " more unique error lines" ]
           else [])
  /\ length (firstn 5 (sorted by_neg_count (count_lines hits [])))
     = Nat.min 5 (length (nodup str_eq_dec hits))
  /\ (length (nodup str_eq_dec hits) = 8 ->
      exists x1 x2 x3 x4 x5 rest,
        sorted by_neg_count (count_lines hits [])
        = x1 :: x2 :: x3 :: x4 :: x5 :: rest
        /\ detail_block (key, hits)
           = [ [NL] ++ s "  " ++ key ++ s ":";
               detail_line x1; detail_line x2; detail_line x3;
               detail_line x4; detail_line x5;
               s "    ... and 3 more unique error lines" ]).
Proof.
  pose proof (sorted_perm by_neg_count (count_lines hits [])) as P.
  assert (Block : detail_block (key, hits)
     = [ [NL] ++ s "  " ++ key ++ s ":" ]
       ++ map detail_line
            (firstn 5 (sorted by_neg_count (count_lines hits [])))
       ++ (if 5 <? length (nodup str_eq_dec hits)
           then [ s "    ... and "
                  ++ str_of_nat (length (nodup str_eq_dec hits) - 5)
                  ++ s " more unique error lines" ]
           else [])).
  { unfold detail_block, more_line. cbn [fst snd].
    now rewrite count_lines_length. }
  split.
  { unfold report. cbn [fst snd]. eexists.
    rewrite !app_assoc. reflexivity. }
  split; [apply sorted_perm|].
  split; [apply (sorted_sorted by_key by_key_total by_key_trans)|].
  split; [apply sorted_by_key_strict|].
  split; [apply (count_lines_nodup hits []); constructor|].
  split; [intros line; now rewrite count_count_lines|].
  split; [intros line; rewrite keys_count_lines; cbn; tauto|].
  split; [exact P|].
  split.
  { eapply StronglySorted_weaken;
      [|apply (sorted_sorted by_neg_count by_neg_count_total
                 by_neg_count_trans)].
    intros x y H. unfold by_neg_count in H. now apply Nat.leb_le. }
  split; [exact Block|].
  split.
  { rewrite length_firstn, (Permutation_length P), count_lines_length.
    reflexivity. }
  intros H8.
  assert (L : length (sorted by_neg_count (count_lines hits [])) = 8).
  { now rewrite (Permutation_length P), count_lines_length. }
  rewrite Block, H8.
  destruct (sorted by_neg_count (count_lines hits []))
    as [|x1 [|x2 [|x3 [|x4 [|x5 rest]]]]]; try discriminate L.
  exists x1, x2, x3, x4, x5, rest. split; reflexivity.
Qed.

Lemma detail_report_witness :
  length (detail_block (s "web/api/app", eight_hits)) = 7
  /\ nth 1 (detail_block (s "web/api/app", eight_hits)) []
     = s "    [3x] NXDOMAIN b"
  /\ nth 6 (detail_block (s "web/api/app", eight_hits)) []
     = s "    ... and 3 more unique error lines".
Proof.
  destruct (detail_report [] [] (s "web/api/app") eight_hits)
    as (_ & _ & _ & _ & _ & _ & _ & _ & _ & _ & _ & H).
  destruct (H eq_refl) as (x1 & x2 & x3 & x4 & x5 & rest & E & B).
  rewrite B. vm_compute in E. inversion E; subst x1.
  repeat split; reflexivity.
Defined.

(** The findings of a run have distinct keys, as the items of a dict. *)
Lemma keys_set (V : Type) (k x : str) (v : V) (d : dict V) :
  In x (Dict.keys (Dict.set k v d)) <-> x = k \/ In x (Dict.keys d).
Proof.
  unfold Dict.keys.
  induction d as [|[k0 v0] d IH]; cbn [Dict.set map In fst].
  - intuition.
  - destruct (str_eqb k k0) eqn:E; cbn [map In fst].
    + apply str_eqb_eq in E; subst. intuition.
    + rewrite IH. intuition.
Qed.

Lemma keys_set_nodup (V : Type) (k : str) (v : V) (d : dict V) :
  NoDup (Dict.keys d) -> NoDup (Dict.keys (Dict.set k v d)).
Proof.
  unfold Dict.keys.
  induction d as [|[k0 v0] d IH]; cbn [Dict.set map fst]; intros H.
  - constructor; [intros [] | constructor].
  - inversion H as [|? ? Hin Hd]; subst.
    destruct (str_eqb k k0) eqn:E; cbn [map fst].
    + constructor; assumption.
    + constructor; [|auto].
      intros X. apply (keys_set k k0 v d) in X as [X|X]; [|contradiction].
      subst. now rewrite str_eqb_refl in E.
Qed.

Lemma record_hits_nodup (key : str) (hits : list str) (t : tables) :
  NoDup (Dict.keys (fst t)) ->
  NoDup (Dict.keys (fst (record_hits key hits t))).
Proof.
  destruct hits; cbn [record_hits fst]; [auto | apply keys_set_nodup].
Qed.

Lemma pods_tables_nodup (w : world) (a : arguments) (ps : list PodRef) :
  forall t : tables,
    NoDup (Dict.keys (fst t)) ->
    NoDup (Dict.keys (fst (pods_tables w a ps t))).
Proof.
  unfold pods_tables.
  induction ps as [|p ps IH]; intros t H; cbn [fold_left]; [exact H|].
  apply IH. unfold pod_tables.
  revert t H. induction (pod_containers p) as [|c cs IHc]; intros t H;
    cbn [fold_left]; [exact H|].
  apply IHc, record_hits_nodup, H.
Qed.

(* ================================================================= *)
(** * Further properties of the script *)

(** ** Failures of the pod list *)

(** When [kubectl get pods] returns a nonzero code, nothing is written to
    standard output, standard error gets the one line with the standard
    error of the command, and the status is 1. *)
Theorem listing_failure_outcome (w : world) (a : arguments) :
  listing_failed w a ->
  run w a
  = Outcome []
      [s "ERROR: kubectl get pods failed: " ++ stderr (listing w a)] 1.
Proof.
  intros F. unfold run. fold io0. now rewrite (main_listing_failed F).
Qed.

Lemma listing_failure_outcome_witness :
  run broken_world sample_args
  = Outcome [] [s "ERROR: kubectl get pods failed: boom"] 1.
Proof.
  apply (@listing_failure_outcome broken_world sample_args).
  unfold listing_failed. vm_compute. discriminate.
Defined.

Lemma main_raise (w : world) (a : arguments) (e : exn) (o : io) :
  collect w a io0 = Raise e o -> main w a io0 = Raise e o.
Proof. intros H. unfold main, bind. now rewrite H. Qed.

Lemma collect_unreadable_out (w : world) (a : arguments) :
  ~ listing_failed w a -> listing_unreadable w a ->
  exists e o,
    collect w a io0 = Raise e o
    /\ exit_status (@Raise unit e o) = 1%Z
    /\ (out o = [] \/ exists n, out o = [scanning_line n a]).
Proof.
  unfold listing_failed, listing_unreadable, collect, get_pods, bind, lift,
    subprocess_run.
  rewrite get_pods_cmd_args. fold (listing w a). unfold ret. intros F.
  destruct (Z.eqb_spec (returncode (listing w a)) 0) as [Hrc|Hrc];
    [|contradiction].
  cbn [negb].
  destruct (json_loads w (stdout (listing w a))) as [j|];
    [|intros _; exists JSONDecodeError, io0; auto].
  unfold read_listing.
  destruct (getitem j (s "items")) as [items|e1] eqn:G;
    [|intros _; exists e1, io0; split; [reflexivity|];
      split; [apply (@crashed_raise unit e1 io0);
              eapply getitem_error; eauto | auto]].
  destruct (py_iter items) as [pods|e2] eqn:I.
  - intros R. rewrite (py_len_iter _ I). unfold print.
    destruct (scan_pods_unread w a pods ([], [])
                (IO (out io0 ++ [scanning_line (length pods) a]) (err io0)) R)
      as [X Y].
    destruct (scan_pods w a pods _ _) as [t o|e o]; [discriminate X|].
    exists e, o. split; [reflexivity|]. split; [exact X|].
    right. exists (length pods). exact Y.
  - intros _. destruct (py_len items) as [n|e3] eqn:L.
    + destruct items; discriminate.
    + exists e3, io0. split; [reflexivity|].
      split; [apply (@crashed_raise unit e3 io0);
              eapply py_len_error; eauto | auto].
Qed.

(** When the command succeeded but its output cannot be read, the run stops
    with status 1 having written to standard output nothing, or the header
    line alone when the fault is in one of the pods: never a report, never
    the line that tells there are no errors. *)
Theorem unreadable_listing_outcome (w : world) (a : arguments) :
  ~ listing_failed w a -> listing_unreadable w a ->
  status (run w a) = 1%Z
  /\ (stdout_text (run w a) = []
      \/ exists n, stdout_text (run w a) = scanning_line n a ++ [NL]).
Proof.
  intros F U.
  destruct (collect_unreadable_out F U) as (e & o & C & X & O).
  unfold run. fold io0. rewrite (main_raise _ _ C).
  cbn [printed status stdout_text]. split; [exact X|].
  destruct O as [O|[n O]]; rewrite O.
  - left. reflexivity.
  - right. exists n. cbn. now rewrite app_nil_r.
Qed.

Lemma unreadable_listing_outcome_witness :
  (status (run unreadable_world sample_args) = 1%Z
   /\ (stdout_text (run unreadable_world sample_args) = []
       \/ exists n,
            stdout_text (run unreadable_world sample_args)
            = scanning_line n sample_args ++ [NL]))
  /\ stdout_text (run unreadable_world sample_args)
     = s "Scanning 2 pods (since=1h, tail=500)..." ++ [NL; NL]
  /\ warnings (run unreadable_world sample_args)
     = [s "  WARN: timeout reading logs from web/api/slow"]
  /\ stdout_text (run undecodable_world sample_args) = [].
Proof.
  split; [|repeat split; vm_compute; reflexivity].
  apply (@unreadable_listing_outcome unreadable_world sample_args).
  - unfold listing_failed. vm_compute. intros H. now apply H.
  - unfold listing_unreadable. vm_compute. reflexivity.
Defined.

(** The scan reads the parsed command line only through [since] and
    [tail]. *)
Lemma scan_pods_args (w : world) (a a' : arguments) (pods : list json) :
  since a = since a' -> tail a = tail a' ->
  forall t o, scan_pods w a pods t o = scan_pods w a' pods t o.
Proof.
  intros S T.
  assert (C : forall n ns cs t o,
             scan_containers w a n ns cs t o
             = scan_containers w a' n ns cs t o).
  { intros n ns cs. induction cs as [|c cs IH]; intros t o; [reflexivity|].
    cbn [scan_containers]. unfold bind, scan_container. rewrite S, T.
    destruct (get_logs w n ns c (since a') (tail a')) as [logs|[]];
      cbn; auto. }
  induction pods as [|pod pods IH]; intros t o; [reflexivity|].
  cbn [scan_pods]. unfold bind, scan_pod, bind.
  destruct (lift (metadata pod (s "name")) o) as [n o1|]; [|reflexivity].
  destruct (lift (metadata pod (s "namespace")) o1) as [ns o2|];
    [|reflexivity].
  destruct (lift (container_names pod) o2) as [cs o3|]; [|reflexivity].
  rewrite C. destruct (scan_containers w a' n ns cs t o3); auto.
Qed.

Lemma main_args (w : world) (a a' : arguments) :
  truthy (namespace a) = truthy (namespace a') ->
  since a = since a' -> tail a = tail a' ->
  forall o, main w a o = main w a' o.
Proof.
  intros N S T o.
  assert (G : get_pods w (namespace a) = get_pods w (namespace a')).
  { unfold get_pods, get_pods_cmd. now rewrite N. }
  assert (SL : forall n, scanning_line n a = scanning_line n a').
  { intros n. unfold scanning_line. now rewrite S, T. }
  unfold main, collect, bind. rewrite G.
  destruct (get_pods w (namespace a') o) as [pods o0|]; [|reflexivity].
  destruct (lift (py_len pods) o0) as [n o1|]; [|reflexivity].
  rewrite SL.
  destruct (print (scanning_line n a') o1) as [u o2|]; [|reflexivity].
  destruct (lift (py_iter pods) o2) as [items o3|]; [|reflexivity].
  now rewrite (scan_pods_args w a a' items S T).
Qed.

(** An empty [--namespace] counts as none: the pods of all namespaces are
    listed and the run is the run without the flag; a non-empty one is passed
    after [-n]. *)
Theorem empty_namespace_is_all (w : world) (since : str) (tail : Z) :
  get_pods_cmd (Some [])
  = map JStr [ s "kubectl"; s "get"; s "pods"; s "-o"; s "json";
               s "--all-namespaces" ]
  /\ run w (Args (Some []) since tail) = run w (Args None since tail)
  /\ forall c ns,
       get_pods_cmd (Some (c :: ns))
       = map JStr [ s "kubectl"; s "get"; s "pods"; s "-o"; s "json";
                    s "-n"; c :: ns ].
Proof.
  split; [reflexivity|]. split; [|intros c ns; reflexivity].
  unfold run.
  now rewrite (@main_args w (Args (Some []) since tail)
                 (Args None since tail) eq_refl eq_refl eq_refl).
Qed.

(** ** Warnings *)

Lemma pod_warnings_slow (w : world) (a : arguments) (p : PodRef) :
  pod_warnings w a p
  = map (warning_of (pod_namespace p) (pod_name p)) (slow_containers w a p).
Proof.
  unfold pod_warnings, slow_containers.
  induction (pod_containers p) as [|c cs IH]; cbn [flat_map filter map];
    [reflexivity|].
  destruct (timed_out w a (pod_name p) (pod_namespace p) c);
    cbn [app map]; now rewrite IH.
Qed.

(** In a run whose pod list was read, standard error holds one warning for
    each container whose fetch timed out, in the order of the scan, and
    nothing else. *)
Theorem warnings_are_timeouts (w : world) (a : arguments) (ps : list PodRef) :
  listed_pods w a = Some ps ->
  warnings (run w a)
  = flat_map
      (fun p =>
         map (fun c =>
                s "  WARN: timeout reading logs from "
                ++ pod_namespace p ++ s "/" ++ pod_name p ++ s "/" ++ c)
           (slow_containers w a p))
      ps
  /\ length (warnings (run w a))
     = list_sum (map (fun p => length (slow_containers w a p)) ps).
Proof.
  intros L. rewrite (run_listed _ _ L). cbn [warnings].
  assert (E : flat_map (pod_warnings w a) ps
              = flat_map
                  (fun p =>
                     map (fun c =>
                            s "  WARN: timeout reading logs from "
                            ++ pod_namespace p ++ s "/" ++ pod_name p
                            ++ s "/" ++ c)
                       (slow_containers w a p))
                  ps).
  { apply flat_map_ext. intros p. apply pod_warnings_slow. }
  rewrite E. split; [reflexivity|].
  clear E L. induction ps as [|p ps IH]; [reflexivity|].
  cbn [flat_map]. rewrite length_app, length_map.
  exact (f_equal (Nat.add _) IH).
Qed.

Lemma warnings_are_timeouts_witness :
  warnings (run noisy_world sample_args)
  = [s "  WARN: timeout reading logs from web/api/slow"].
Proof.
  destruct (@warnings_are_timeouts noisy_world sample_args
              [ Pod (s "api") (s "web") [s "app"; s "slow"; s "down"];
                Pod (s "pg") (s "db") [s "main"] ]) as [H _].
  - vm_compute. reflexivity.
  - rewrite H. vm_compute. reflexivity.
Defined.

(** ** Pods without containers *)

(** A pod entry with its two names and no [spec], or a [spec] without
    [containers], or an empty list of them, is passed over: no fetch, no
    output, the tables as they were, whatever the names are.  A [spec] that
    is [null] ends the run with [AttributeError]. *)
Theorem pod_without_containers (w : world) (a : arguments)
    (entry : list (str * json)) (m : list (str * json)) (n ns : json)
    (t : tables) (o : io) :
  lookup (s "metadata") entry = Some (JObj m) ->
  lookup (s "name") m = Some n ->
  lookup (s "namespace") m = Some ns ->
  (lookup (s "spec") entry = None ->
   scan_pod w a (JObj entry) t o = Ok t o)
  /\ (forall spec,
        lookup (s "spec") entry = Some (JObj spec) ->
        lookup (s "containers") spec = None
        \/ lookup (s "containers") spec = Some (JArr []) ->
        scan_pod w a (JObj entry) t o = Ok t o)
  /\ (lookup (s "spec") entry = Some JNull ->
      scan_pod w a (JObj entry) t o = Raise AttributeError o).
Proof.
  intros M N NS.
  assert (Mn : metadata (JObj entry) (s "name") = Returns n).
  { unfold metadata, getitem. now rewrite M, N. }
  assert (Mns : metadata (JObj entry) (s "namespace") = Returns ns).
  { unfold metadata, getitem. now rewrite M, NS. }
  unfold scan_pod, bind, lift, container_names, get_method.
  rewrite Mn, Mns. unfold ret. repeat split.
  - intros S. rewrite S. reflexivity.
  - intros spec S [C|C]; rewrite S, C; reflexivity.
  - intros S. rewrite S. reflexivity.
Qed.

Lemma pod_without_containers_witness :
  scan_pod noisy_world sample_args
    (JObj [(s "metadata",
            JObj [(s "name", JNumber 7); (s "namespace", JStr (s "web"))])])
    ([], []) io0
  = Ok ([], []) io0.
Proof.
  destruct (@pod_without_containers noisy_world sample_args
              [(s "metadata",
                JObj [(s "name", JNumber 7); (s "namespace", JStr (s "web"))])]
              [(s "name", JNumber 7); (s "namespace", JStr (s "web"))]
              (JNumber 7) (JStr (s "web")) ([], []) io0
              eq_refl eq_refl eq_refl) as (H & _ & _).
  apply H. reflexivity.
Defined.

(** ** Extractor: what is counted *)

Lemma extract_line_endpoint (line : str) (d : dict nat) :
  extract_line [ep_re; host_re] line d
  = match endpoint_of line with
    | Some g => Dict.add g 1 d
    | None => d
    end.
Proof.
  unfold endpoint_of. cbn [extract_line].
  destruct (search ep_re line) as [[g|]|]; try reflexivity.
  destruct (search host_re line) as [[g|]|]; reflexivity.
Qed.

Lemma endpoint_of_found (line : str) :
  (exists g, endpoint_of line = Some g)
  <-> found ep_re line || found host_re line = true.
Proof.
  unfold endpoint_of, found.
  destruct (search ep_re line) as [m|] eqn:E.
  - destruct (ep_re_group _ E) as [x ->]. cbn. split; eauto.
  - destruct (search host_re line) as [m|] eqn:H.
    + destruct (host_re_group _ H) as [x ->]. cbn. split; eauto.
    + cbn. split; [intros [g G]; discriminate | discriminate].
Qed.

Lemma count_extract_lines (ep : str) (hits : list str) :
  forall d : dict nat,
    Dict.count ep (extract_lines hits d)
    = Dict.count ep d + length (filter (names ep) hits).
Proof.
  induction hits as [|h hits IH]; intros d; cbn [extract_lines filter];
    [cbn; lia|].
  rewrite IH, extract_line_endpoint. unfold names at 2.
  destruct (endpoint_of h) as [g|].
  - rewrite count_add. destruct (str_eqb ep g); cbn [length]; lia.
  - lia.
Qed.

(** The count of an endpoint is the number of hit lines that give it; so
    the counts of two hit lists add up when the lists are put together, and
    the order of the lines does not change them. *)
Theorem extract_endpoints_counts (hits : list str) (ep : str) :
  Dict.count ep (extract_endpoints hits) = length (filter (names ep) hits)
  /\ (forall more,
        Dict.count ep (extract_endpoints (hits ++ more))
        = Dict.count ep (extract_endpoints hits)
          + Dict.count ep (extract_endpoints more))
  /\ (forall hits',
        Permutation hits hits' ->
        Dict.count ep (extract_endpoints hits')
        = Dict.count ep (extract_endpoints hits)).
Proof.
  assert (C : forall l,
             Dict.count ep (extract_endpoints l)
             = length (filter (names ep) l)).
  { intros l. unfold extract_endpoints. now rewrite count_extract_lines. }
  split; [apply C|]. split.
  - intros more. rewrite !C, filter_app, length_app. reflexivity.
  - intros hits' P. rewrite !C. apply Permutation_length.
    clear C. induction P as [|x l l' P IH|x y l|l l' l'' P1 IH1 P2 IH2];
      cbn [filter].
    + reflexivity.
    + destruct (names ep x); [apply perm_skip|]; now symmetry.
    + destruct (names ep x), (names ep y);
        try reflexivity; apply perm_swap.
    + now rewrite IH2.
Qed.

Lemma extract_endpoints_counts_witness :
  Dict.count (s "10.0.0.5:443")
    (extract_endpoints [failed_line; dial_line; dial_line])
  = Dict.count (s "10.0.0.5:443")
      (extract_endpoints [dial_line; failed_line; dial_line]).
Proof.
  destruct (extract_endpoints_counts [dial_line; failed_line; dial_line]
              (s "10.0.0.5:443")) as (_ & _ & P).
  apply P. apply perm_swap.
Defined.

Lemma sum_add (k : str) (n : nat) (d : dict nat) :
  list_sum (map snd (Dict.add k n d)) = list_sum (map snd d) + n.
Proof.
  induction d as [|[k0 v] d IH]; cbn [Dict.add map snd].
  - cbn. lia.
  - destruct (str_eqb k k0); cbn [map snd];
      change (list_sum (?x :: ?l)) with (x + list_sum l); lia.
Qed.

Lemma sum_extract_lines (hits : list str) :
  forall d : dict nat,
    list_sum (map snd (extract_lines hits d))
    = list_sum (map snd d)
      + length (filter (fun l => found ep_re l || found host_re l) hits).
Proof.
  induction hits as [|h hits IH]; intros d; cbn [extract_lines filter];
    [cbn; lia|].
  rewrite IH, extract_line_endpoint.
  pose proof (endpoint_of_found h) as F.
  destruct (endpoint_of h) as [g|].
  - destruct F as [F _]. rewrite F by eauto. rewrite sum_add.
    cbn [length]. lia.
  - destruct (found ep_re h || found host_re h); [|reflexivity].
    destruct F as [_ F]. destruct (F eq_refl) as [g G]. discriminate.
Qed.

(** A hit line adds one to one endpoint at most: the counts of the table
    sum to the number of lines in which one of the two extraction patterns
    is found, which is at most the number of hit lines. *)
Theorem extract_endpoints_total (hits : list str) :
  list_sum (map snd (extract_endpoints hits))
  = length (filter (fun l => found ep_re l || found host_re l) hits)
  /\ list_sum (map snd (extract_endpoints hits)) <= length hits.
Proof.
  unfold extract_endpoints. rewrite sum_extract_lines. cbn [map list_sum].
  split; [reflexivity|]. apply filter_length_le.
Qed.

(** ** Extractor: what an endpoint looks like *)

Lemma all_ascii_complete (c : ascii) : In c all_ascii.
Proof.
  unfold all_ascii. rewrite <- (ascii_nat_embedding c).
  apply in_map, in_seq. pose proof (nat_ascii_bounded c). lia.
Qed.

(** A property of every character, checked on all of them. *)
Lemma by_enumeration (p : ascii -> bool) :
  forallb p all_ascii = true -> forall c, p c = true.
Proof.
  intros H c. rewrite forallb_forall in H. apply H, all_ascii_complete.
Qed.

(** With a pattern that ends with its group, group 1 is a piece of the line
    and is in the language of the group. *)
Lemma search_group_lang (pre g : regex) (ic : bool) (l x : str) :
  search (Pattern (seqs [pre; Group g]) ic) l = Some (Some x) ->
  lang ic g x /\ exists before after, l = before ++ x ++ after.
Proof.
  assert (Here : forall l,
             match_here (Pattern (seqs [pre; Group g]) ic) l = Some (Some x) ->
             lang ic g x /\ exists before after, l = before ++ x ++ after).
  { clear l. intros l E. unfold match_here in E.
    cbn [rx ignorecase seqs fold_right rmatch] in E.
    apply rmatch_sound in E as (u1 & v1 & c1 & -> & _ & E).
    apply rmatch_sound in E as (u2 & v2 & c2 & -> & L & E).
    inversion E as [X]. rewrite length_app, Nat.add_sub.
    rewrite firstn_app, firstn_all, Nat.sub_diag. cbn [firstn].
    rewrite app_nil_r. split; [exact L|]. exists u1, v2. reflexivity. }
  induction l as [|c l IH]; cbn [search];
    destruct (match_here _ _) as [m|] eqn:E; intros H;
    try discriminate.
  - inversion H; subst m. now apply Here.
  - inversion H; subst m. now apply Here.
  - destruct (IH H) as (L & b & a & ->). split; [exact L|].
    exists (c :: b), a. reflexivity.
Qed.

Lemma lang_endpoint (host : atom) (x : str) :
  lang false
    (seqs [Plus host; lits ":"; Plus (In_ [CDigit])]) x ->
  exists h p,
    x = h ++ s ":" ++ p /\ h <> [] /\ p <> []
    /\ Forall (fun c => atom_match false host c = true) h
    /\ Forall (fun c => isdigit c = true) p.
Proof.
  cbn [seqs fold_right lits list_ascii_of_string]. intros H.
  inversion H as [| |? ? h r1 Hh Hr1| | | | | | |]; subst; clear H.
  inversion Hh as [| | | | | |? c h' Fh| | |]; subst; clear Hh.
  inversion Hr1 as [| |? ? colon r2 Hc Hr2| | | | | | |]; subst; clear Hr1.
  inversion Hc as [| |? ? c1 e1 Hc1 He1| | | | | | |]; subst; clear Hc.
  inversion Hc1 as [|? ch Hm| | | | | | | |]; subst; clear Hc1.
  inversion He1; subst; clear He1.
  inversion Hr2 as [| |? ? p e2 Hp He2| | | | | | |]; subst; clear Hr2.
  inversion Hp as [| | | | | |? d p' Fp| | |]; subst; clear Hp.
  inversion He2; subst; clear He2.
  cbn [atom_match lit_match] in Hm. apply Ascii.eqb_eq in Hm; subst ch.
  exists (c :: h'), (d :: p'). rewrite !app_nil_r.
  split; [reflexivity|]. split; [discriminate|]. split; [discriminate|].
  split; [exact Fh|].
  eapply Forall_impl; [|exact Fp]. intros a Ha.
  cbn [atom_match existsb citem_match] in Ha. now rewrite orb_false_r in Ha.
Qed.

Lemma keys_extract_lines (ep : str) (hits : list str) :
  forall d : dict nat,
    In ep (Dict.keys (extract_lines hits d))
    <-> In ep (Dict.keys d)
        \/ exists line, In line hits /\ endpoint_of line = Some ep.
Proof.
  induction hits as [|h hits IH]; intros d; cbn [extract_lines].
  - split; [auto | intros [H|(l & [] & _)]; exact H].
  - rewrite IH, extract_line_endpoint.
    destruct (endpoint_of h) as [g|] eqn:E.
    + rewrite keys_add. split.
      * intros [[->|H]|(l & I & G)]; eauto.
        -- right. exists h. split; [left; reflexivity | exact E].
        -- right. exists l. split; [right; exact I | exact G].
      * intros [H|(l & [->|I] & G)]; eauto.
        left. left. congruence.
    + split.
      * intros [H|(l & I & G)]; eauto.
        right. exists l. split; [right; exact I | exact G].
      * intros [H|(l & [->|I] & G)]; eauto. congruence.
Qed.

(** Every endpoint in the table is a piece of one of the hit lines, of the
    form host, colon, port: the port a non-empty run of decimal digits, the
    host non-empty and free of whitespace and colons. *)
Theorem endpoint_shape (hits : list str) (ep : str) :
  In ep (Dict.keys (extract_endpoints hits)) ->
  exists line host port,
    In line hits
    /\ (exists before after, line = before ++ ep ++ after)
    /\ ep = host ++ s ":" ++ port
    /\ host <> [] /\ port <> []
    /\ Forall (fun c => isdigit c = true) port
    /\ Forall (fun c => isspace c = false /\ c <> ":"%char) host.
Proof.
  unfold extract_endpoints. rewrite keys_extract_lines.
  intros [[]|(line & I & E)].
  assert (G : exists host_atom,
             (lang false
                (seqs [Plus host_atom; lits ":"; Plus (In_ [CDigit])]) ep
              /\ exists before after, line = before ++ ep ++ after)
             /\ forallb
                  (fun c => implb (atom_match false host_atom c)
                              (negb (isspace c)
                               && negb (Ascii.eqb c ":"%char)))
                  all_ascii = true).
  { unfold endpoint_of in E.
    destruct (search ep_re line) as [m|] eqn:S1.
    - subst m. eexists. split; [exact (search_group_lang _ _ _ _ S1)|].
      vm_compute. reflexivity.
    - destruct (search host_re line) as [m|] eqn:S2; [|discriminate].
      subst m. eexists. split; [exact (search_group_lang _ _ _ _ S2)|].
      vm_compute. reflexivity. }
  destruct G as (host_atom & (L & Sub) & Chk).
  destruct (lang_endpoint L) as (h & p & -> & Hh & Hp & Fh & Fp).
  exists line, h, p.
  split; [exact I|]. split; [exact Sub|]. split; [reflexivity|].
  split; [exact Hh|]. split; [exact Hp|]. split; [exact Fp|].
  eapply Forall_impl; [|exact Fh]. intros c Hc.
  pose proof (by_enumeration _ Chk c) as B. cbn beta in B.
  rewrite Hc in B. cbn [implb] in B.
  apply andb_true_iff in B as [B1 B2].
  apply negb_true_iff in B1. apply negb_true_iff in B2.
  split; [exact B1|]. intros ->. discriminate B2.
Qed.

Lemma endpoint_shape_witness :
  exists line host port,
    In line [dial_line]
    /\ (exists before after,
          line = before ++ s "10.0.0.5:443" ++ after)
    /\ s "10.0.0.5:443" = host ++ s ":" ++ port
    /\ host <> [] /\ port <> []
    /\ Forall (fun c => isdigit c = true) port
    /\ Forall (fun c => isspace c = false /\ c <> ":"%char) host.
Proof.
  apply (@endpoint_shape [dial_line] (s "10.0.0.5:443")).
  vm_compute. left. reflexivity.
Defined.

(** ** Counting the lines of a container *)

Lemma add_positive (k : str) (n : nat) (d : dict nat) :
  1 <= n -> Forall (fun kv => 1 <= snd kv) d ->
  Forall (fun kv => 1 <= snd kv) (Dict.add k n d).
Proof.
  intros N. induction 1 as [|[k0 v] d H F IH]; cbn [Dict.add].
  - repeat constructor. exact N.
  - destruct (str_eqb k k0); constructor; auto. cbn [snd] in *. lia.
Qed.

Lemma sum_count_lines (hits : list str) :
  forall d : dict nat,
    list_sum (map snd (count_lines hits d))
    = list_sum (map snd d) + length hits.
Proof.
  induction hits as [|h hits IH]; intros d; cbn [count_lines length];
    [lia|].
  rewrite IH, sum_add. lia.
Qed.

Lemma count_lines_positive (hits : list str) :
  forall d : dict nat,
    Forall (fun kv => 1 <= snd kv) d ->
    Forall (fun kv => 1 <= snd kv) (count_lines hits d).
Proof.
  induction hits as [|h hits IH]; intros d H; cbn [count_lines]; [exact H|].
  apply IH, add_positive; [lia | exact H].
Qed.

(** Putting equal lines together loses none: the counts of the distinct
    lines of a container sum to the number of its hit lines, each count is
    at least one, and the lines shown with those left out are all the
    distinct lines. *)
Theorem line_counts_sum (hits : list str) :
  list_sum (map snd (count_lines hits [])) = length hits
  /\ Forall (fun kv => 1 <= snd kv) (count_lines hits [])
  /\ length (firstn 5 (sorted by_neg_count (count_lines hits [])))
     + (length (count_lines hits []) - 5)
     = length (count_lines hits []).
Proof.
  split; [now rewrite sum_count_lines|].
  split; [apply count_lines_positive; constructor|].
  rewrite length_firstn.
  rewrite (Permutation_length (sorted_perm by_neg_count _)). lia.
Qed.

(** ** The tables of a run *)

Lemma merge_items_ok (items : list (str * nat)) :
  Forall (fun kv => 1 <= snd kv) items ->
  forall all : dict nat,
    NoDup (Dict.keys all) /\ Forall (fun kv => 1 <= snd kv) all ->
    NoDup (Dict.keys (merge_items items all))
    /\ Forall (fun kv => 1 <= snd kv) (merge_items items all).
Proof.
  induction 1 as [|[k v] items H F IH]; intros all [N P]; cbn [merge_items];
    [auto|].
  apply IH. split; [apply keys_add_nodup, N | apply add_positive; auto].
Qed.

Lemma extract_lines_positive (hits : list str) :
  forall d : dict nat,
    Forall (fun kv => 1 <= snd kv) d ->
    Forall (fun kv => 1 <= snd kv) (extract_lines hits d).
Proof.
  induction hits as [|h hits IH]; intros d H; cbn [extract_lines]; [exact H|].
  apply IH. rewrite extract_line_endpoint.
  destruct (endpoint_of h); [apply add_positive; [lia | exact H] | exact H].
Qed.

Lemma in_set (V : Type) (k k' : str) (v v' : V) (d : dict V) :
  In (k', v') (Dict.set k v d) -> (k' = k /\ v' = v) \/ In (k', v') d.
Proof.
  induction d as [|[k0 v0] d IH]; cbn [Dict.set In].
  - intros [H|[]]. inversion H; auto.
  - destruct (str_eqb k k0) eqn:E; cbn [In].
    + apply str_eqb_eq in E; subst k0.
      intros [H|H]; [inversion H; auto | auto].
    + intros [H|H]; [auto | destruct (IH H); auto].
Qed.

Lemma record_hits_ok (key : str) (hits : list str) (t : tables) :
  tables_ok t -> tables_ok (record_hits key hits t).
Proof.
  intros (N1 & F1 & N2 & F2).
  destruct hits as [|h hits]; [repeat split; assumption|].
  unfold tables_ok. cbn [record_hits fst snd].
  split; [apply keys_set_nodup, N1|]. split.
  - rewrite Forall_forall in *. intros [k v] I.
    apply in_set in I as [[-> ->]|I]; [discriminate | now apply F1].
  - apply merge_items_ok; [|auto].
    apply extract_lines_positive. constructor.
Qed.

Lemma pods_tables_ok (w : world) (a : arguments) (ps : list PodRef) :
  forall t : tables, tables_ok t -> tables_ok (pods_tables w a ps t).
Proof.
  unfold pods_tables.
  induction ps as [|p ps IH]; intros t H; cbn [fold_left]; [exact H|].
  apply IH. unfold pod_tables.
  revert t H. induction (pod_containers p) as [|c cs IHc]; intros t H;
    cbn [fold_left]; [exact H|].
  apply IHc, record_hits_ok, H.
Qed.

(** A scan that ends gives the tables of the pods that were listed. *)
Lemma collect_ok (w : world) (a : arguments) (t : tables) (o : io) :
  collect w a io0 = Ok t o ->
  exists ps,
    listed_pods w a = Some ps /\ t = pods_tables w a ps ([], []).
Proof.
  intros C. destruct (listed_pods w a) as [ps|] eqn:L.
  - exists ps. split; [reflexivity|].
    rewrite (collect_listed _ _ L) in C. now inversion C.
  - exfalso. apply listed_pods_none in L.
    assert (S : exit_status (collect w a io0) = 1%Z).
    { destruct (Z.eq_dec (returncode (listing w a)) 0) as [E|E].
      - destruct L as [L|L]; [contradiction|].
        apply collect_unreadable; [intros F; apply F, E | exact L].
      - rewrite <- main_status, (main_listing_failed E). reflexivity. }
    rewrite C in S. discriminate S.
Qed.

(** When the scan of a run ends, the keys of [findings] are distinct and
    none of its hit lists is empty; the keys of [all_endpoints] are distinct
    and none of its counts is below one. *)
Theorem tables_invariant (w : world) (a : arguments) (t : tables) (o : io) :
  collect w a io0 = Ok t o ->
  NoDup (Dict.keys (fst t))
  /\ Forall (fun kv => snd kv <> []) (fst t)
  /\ NoDup (Dict.keys (snd t))
  /\ Forall (fun kv => 1 <= snd kv) (snd t).
Proof.
  intros C. destruct (@collect_ok w a t o C) as (ps & _ & ->).
  apply (pods_tables_ok w a ps).
  repeat split; constructor.
Qed.

Lemma tables_invariant_witness :
  exists t o,
    collect noisy_world sample_args io0 = Ok t o
    /\ NoDup (Dict.keys (fst t))
    /\ Forall (fun kv => snd kv <> []) (fst t)
    /\ NoDup (Dict.keys (snd t))
    /\ Forall (fun kv => 1 <= snd kv) (snd t).
Proof.
  destruct (collect noisy_world sample_args io0) as [t o|e o] eqn:C.
  - exists t, o. split; [reflexivity|].
    apply (@tables_invariant noisy_world sample_args t o C).
  - vm_compute in C. discriminate C.
Defined.

Lemma in_record_hits (key : str) (hits : list str) (t : tables)
    (k : str) (v : list str) :
  In (k, v) (fst (record_hits key hits t)) ->
  (k = key /\ v = hits /\ hits <> []) \/ In (k, v) (fst t).
Proof.
  destruct hits as [|h hits]; cbn [record_hits fst]; [auto|].
  intros I. apply in_set in I as [[-> ->]|I]; [left|auto].
  repeat split. discriminate.
Qed.

Lemma key_record_hits (key : str) (hits : list str) (t : tables) (k : str) :
  (hits <> [] /\ k = key) \/ In k (Dict.keys (fst t)) ->
  In k (Dict.keys (fst (record_hits key hits t))).
Proof.
  destruct hits as [|h hits]; cbn [record_hits fst].
  - intros [[H _]|H]; [now elim H | exact H].
  - intros [[_ ->]|H]; apply keys_set; auto.
Qed.

Lemma in_pod_tables (w : world) (a : arguments) (p : PodRef)
    (k : str) (v : list str) :
  forall t : tables,
    In (k, v) (fst (pod_tables w a p t)) ->
    In (k, v) (fst t) \/ reported w a [p] k v.
Proof.
  unfold pod_tables, reported.
  assert (G : forall cs t,
             In (k, v)
               (fst (fold_left
                       (fun t c =>
                          record_hits
                            (key_of (pod_namespace p) (pod_name p) c)
                            (container_hits w a (pod_name p)
                               (pod_namespace p) c) t)
                       cs t)) ->
             In (k, v) (fst t)
             \/ exists c,
                  In c cs
                  /\ k = key_of (pod_namespace p) (pod_name p) c
                  /\ v = container_hits w a (pod_name p) (pod_namespace p) c
                  /\ v <> []).
  { induction cs as [|c cs IH]; intros t; cbn [fold_left]; [auto|].
    intros I. apply IH in I as [I|(c' & I & K)].
    - apply in_record_hits in I as [(-> & -> & N)|I]; [|auto].
      right. exists c. repeat split; auto. left; reflexivity.
    - right. exists c'. split; [right; exact I | exact K]. }
  intros t I. apply G in I as [I|(c & I & K & V & N)]; [auto|].
  right. exists p, c. split; [left; reflexivity|]. auto.
Qed.

Lemma key_pod_tables (w : world) (a : arguments) (p : PodRef) (k : str) :
  forall t : tables,
    In k (Dict.keys (fst t))
    \/ (exists c,
          In c (pod_containers p)
          /\ k = key_of (pod_namespace p) (pod_name p) c
          /\ container_hits w a (pod_name p) (pod_namespace p) c <> []) ->
    In k (Dict.keys (fst (pod_tables w a p t))).
Proof.
  unfold pod_tables.
  induction (pod_containers p) as [|c cs IH]; intros t; cbn [fold_left].
  - intros [H|(c & [] & _)]. exact H.
  - intros [H|(c' & [->|I] & K & N)]; apply IH.
    + left. apply key_record_hits. auto.
    + left. apply key_record_hits. auto.
    + right. exists c'. auto.
Qed.

Lemma in_pods_tables (w : world) (a : arguments) (ps : list PodRef)
    (k : str) (v : list str) :
  forall t : tables,
    In (k, v) (fst (pods_tables w a ps t)) ->
    In (k, v) (fst t) \/ reported w a ps k v.
Proof.
  unfold pods_tables.
  induction ps as [|p ps IH]; intros t; cbn [fold_left]; [auto|].
  intros I. apply IH in I as [I|(p' & c & I & R)].
  - apply in_pod_tables in I as [I|(p' & c & [<-|[]] & R)]; [auto|].
    right. exists p, c. split; [left; reflexivity | exact R].
  - right. exists p', c. split; [right; exact I | exact R].
Qed.

Lemma key_pods_tables (w : world) (a : arguments) (ps : list PodRef)
    (k : str) :
  forall t : tables,
    In k (Dict.keys (fst t)) \/ (exists v, reported w a ps k v) ->
    In k (Dict.keys (fst (pods_tables w a ps t))).
Proof.
  unfold pods_tables.
  induction ps as [|p ps IH]; intros t; cbn [fold_left].
  - intros [H|(v & p & c & [] & _)]. exact H.
  - intros [H|(v & p' & c & [<-|I] & Ic & K & V & N)]; apply IH.
    + left. apply key_pod_tables. auto.
    + left. apply key_pod_tables. right. exists c. subst v. auto.
    + right. exists v, p', c. auto.
Qed.

(** In a run whose pod list was read, every entry of [findings] is a
    container of the list under its key [namespace/pod/container] with its
    hits, which are not empty; and every container of the list that has a
    hit has its key in [findings]. *)
Theorem findings_are_containers_with_hits (w : world) (a : arguments)
    (ps : list PodRef) :
  listed_pods w a = Some ps ->
  exists t o,
    collect w a io0 = Ok t o
    /\ (forall key hits,
          In (key, hits) (fst t) -> reported w a ps key hits)
    /\ (forall key hits,
          reported w a ps key hits -> In key (Dict.keys (fst t))).
Proof.
  intros L. do 2 eexists. split; [apply collect_listed, L|]. split.
  - intros key hits I. apply in_pods_tables in I as [[]|R]. exact R.
  - intros key hits R. apply key_pods_tables. right. eauto.
Qed.

Lemma findings_are_containers_with_hits_witness :
  exists t o,
    collect noisy_world sample_args io0 = Ok t o
    /\ In (s "db/pg/main") (Dict.keys (fst t)).
Proof.
  destruct (@findings_are_containers_with_hits noisy_world sample_args
              [ Pod (s "api") (s "web") [s "app"; s "slow"; s "down"];
                Pod (s "pg") (s "db") [s "main"] ])
    as (t & o & C & _ & K).
  - vm_compute. reflexivity.
  - exists t, o. split; [exact C|].
    apply (K (s "db/pg/main")
             (container_hits noisy_world sample_args (s "pg") (s "db")
                (s "main"))).
    exists (Pod (s "pg") (s "db") [s "main"]), (s "main").
    split; [right; left; reflexivity|]. split; [left; reflexivity|].
    split; [reflexivity|]. split; [reflexivity|].
    vm_compute. discriminate.
Defined.

(** ** The order of the report among equal counts *)

Lemma insert_by_count_stable (n : nat) (x : str * nat)
    (l : list (str * nat)) :
  filter (fun kv => snd kv =? n) (insert by_neg_count x l)
  = filter (fun kv => snd kv =? n) (x :: l).
Proof.
  induction l as [|y l IH]; cbn [insert]; [reflexivity|].
  unfold by_neg_count at 1. destruct (Nat.leb_spec (snd y) (snd x)) as [H|H];
    [reflexivity|].
  cbn [filter] in *. rewrite IH.
  destruct (Nat.eqb_spec (snd y) n), (Nat.eqb_spec (snd x) n);
    try reflexivity. lia.
Qed.

Lemma sorted_by_count_stable (n : nat) (l : list (str * nat)) :
  filter (fun kv => snd kv =? n) (sorted by_neg_count l)
  = filter (fun kv => snd kv =? n) l.
Proof.
  induction l as [|x l IH]; [reflexivity|].
  cbn [sorted fold_right]. fold (sorted by_neg_count l).
  rewrite insert_by_count_stable. cbn [filter]. now rewrite IH.
Qed.

(** The summary of the report lists every endpoint of [all_endpoints] once,
    in descending order of count; endpoints with the same count stay in the
    order in which they were first met.  The same holds of the lines of a
    container. *)
Theorem summary_order (findings : dict (list str)) (all : dict nat) :
  (exists rest,
      report (findings, all)
      = [ rule; s "FAILING ENDPOINTS (aggregated)"; rule ]
        ++ map summary_line (sorted by_neg_count all) ++ rest)
  /\ Permutation (sorted by_neg_count all) all
  /\ StronglySorted (fun x y => snd y <= snd x) (sorted by_neg_count all)
  /\ forall n,
       filter (fun kv => snd kv =? n) (sorted by_neg_count all)
       = filter (fun kv => snd kv =? n) all.
Proof.
  split; [unfold report; cbn [fst snd]; eexists; reflexivity|].
  split; [apply sorted_perm|]. split; [|intros n; apply sorted_by_count_stable].
  eapply StronglySorted_weaken;
    [|apply (sorted_sorted by_neg_count by_neg_count_total
               by_neg_count_trans)].
  intros x y H. unfold by_neg_count in H. now apply Nat.leb_le.
Qed.

(** ** Scanning line by line *)

Lemma splitlines_from_newline (n : nat) :
  forall (a : str), length a <= n ->
  forall (cur b : str),
    exists e,
      (e = [] \/ e = [[]])
      /\ splitlines_from cur (a ++ NL :: b)
         = splitlines_from cur a ++ e ++ splitlines_from [] b.
Proof.
  induction n as [|n IH]; intros a Ha cur b.
  - destruct a; [|cbn in Ha; lia]. cbn [app].
    destruct cur as [|c cur]; [exists [[]] | exists []];
      (split; [auto | reflexivity]).
  - destruct a as [|c a].
    + cbn [app]. destruct cur as [|c cur]; [exists [[]] | exists []];
        (split; [auto | reflexivity]).
    + cbn [length] in Ha. cbn [app splitlines_from].
      destruct (Ascii.eqb c CR) eqn:Ec.
      * destruct a as [|d a].
        -- exists []. split; [auto|]. reflexivity.
        -- cbn [app]. destruct (Ascii.eqb d NL) eqn:Ed.
           ++ cbn [length] in Ha.
              destruct (IH a ltac:(lia) [] b) as (e & He & E).
              exists e. split; [exact He|]. now rewrite E.
           ++ destruct (IH (d :: a) ltac:(lia) [] b) as (e & He & E).
              exists e. split; [exact He|]. cbn [app] in E. now rewrite E.
      * destruct (islinebreak c).
        -- destruct (IH a ltac:(lia) [] b) as (e & He & E).
           exists e. split; [exact He|]. now rewrite E.
        -- apply IH. lia.
Qed.

(** Hits are found line by line: the hits of two texts put together with a
    line feed between them are the hits of the first followed by the hits of
    the second.  So a final line feed changes nothing, and an empty text has
    no hit. *)
Theorem scan_logs_newline (a b : str) :
  scan_logs (a ++ [NL] ++ b) = scan_logs a ++ scan_logs b
  /\ scan_logs (a ++ [NL]) = scan_logs a
  /\ scan_logs [] = [].
Proof.
  assert (G : forall a b,
             scan_logs (a ++ [NL] ++ b) = scan_logs a ++ scan_logs b).
  { clear a b. intros a b. unfold scan_logs, splitlines.
    rewrite !scan_lines_acc. cbn [app].
    destruct (@splitlines_from_newline (length a) a (le_n _) [] b)
      as (e & He & E).
    rewrite E, !filter_app, !map_app.
    destruct He as [->| ->]; reflexivity. }
  split; [apply G|]. split; [|reflexivity].
  rewrite <- (app_nil_r (a ++ [NL])), <- app_assoc, G.
  apply app_nil_r.
Qed.

(** ** Trimming and matching *)

Lemma dropwhile_split (p : ascii -> bool) (l : str) :
  exists pre, l = pre ++ dropwhile p l.
Proof.
  induction l as [|c l [pre IH]]; cbn [dropwhile]; [exists []; reflexivity|].
  destruct (p c); [|exists []; reflexivity].
  exists (c :: pre). cbn [app]. now rewrite <- IH.
Qed.

Lemma dropwhile_head (p : ascii -> bool) (l : str) :
  head_not p (dropwhile p l).
Proof.
  induction l as [|c l IH]; cbn [dropwhile]; [exact I|].
  destruct (p c) eqn:E; [exact IH | exact E].
Qed.

Lemma dropwhile_id (p : ascii -> bool) (l : str) :
  head_not p l -> dropwhile p l = l.
Proof.
  destruct l as [|c l]; cbn [head_not dropwhile]; [reflexivity|].
  now intros ->.
Qed.

Lemma dropwhile_app_stop (p : ascii -> bool) (b r : str) (c : ascii) :
  p c = false -> dropwhile p (b ++ c :: r) = dropwhile p b ++ c :: r.
Proof.
  intros H. induction b as [|x b IH]; cbn [app dropwhile].
  - now rewrite H.
  - destruct (p x); [exact IH | reflexivity].
Qed.

(** The trimmed line is a piece of the line. *)
Lemma strip_infix (l : str) : exists pre post, l = pre ++ strip l ++ post.
Proof.
  unfold strip, rstrip, lstrip.
  destruct (dropwhile_split isspace l) as [pre E1].
  destruct (dropwhile_split isspace (rev (dropwhile isspace l))) as [q E2].
  exists pre, (rev q). rewrite <- rev_app_distr, <- E2, rev_involutive.
  exact E1.
Qed.

(** A piece that starts and ends with characters that are not whitespace
    is a piece of the trimmed line. *)
Lemma strip_keeps (b a u1 u2 : str) (c d : ascii) :
  isspace c = false -> isspace d = false ->
  c :: u1 = u2 ++ [d] ->
  exists b' a',
    strip (b ++ (c :: u1) ++ a) = b' ++ (c :: u1) ++ a'.
Proof.
  intros Hc Hd E. unfold strip, rstrip, lstrip.
  exists (dropwhile isspace b), (rev (dropwhile isspace (rev a))).
  change (b ++ (c :: u1) ++ a) with (b ++ c :: (u1 ++ a)).
  rewrite (@dropwhile_app_stop isspace b (u1 ++ a) c Hc).
  assert (X : dropwhile isspace b ++ c :: u1 ++ a
              = (dropwhile isspace b ++ u2) ++ d :: a).
  { rewrite <- app_assoc. f_equal.
    change (c :: u1 ++ a) with ((c :: u1) ++ a).
    rewrite E, <- app_assoc. reflexivity. }
  rewrite X, rev_app_distr. cbn [rev]. rewrite <- app_assoc. cbn [app].
  rewrite (@dropwhile_app_stop isspace (rev a) _ d Hd).
  rewrite rev_app_distr. cbn [rev]. rewrite rev_involutive.
  set (R := rev (dropwhile isspace (rev a))).
  rewrite <- !app_assoc. f_equal.
  change (u2 ++ [d] ++ R = (c :: u1) ++ R).
  now rewrite E, <- app_assoc.
Qed.

Lemma strip_idempotent (l : str) : strip (strip l) = strip l.
Proof.
  unfold strip, rstrip, lstrip.
  set (y := dropwhile isspace l).
  set (z := dropwhile isspace (rev y)).
  assert (Hz : head_not isspace z) by apply dropwhile_head.
  assert (Hr : head_not isspace (rev z)).
  { destruct (dropwhile_split isspace (rev y)) as [q E]. fold z in E.
    assert (Ey : y = rev z ++ rev q).
    { rewrite <- rev_app_distr, <- E. now rewrite rev_involutive. }
    pose proof (dropwhile_head isspace l) as Hy. fold y in Hy.
    rewrite Ey in Hy. destruct (rev z); [exact I | exact Hy]. }
  rewrite (@dropwhile_id isspace _ Hr), rev_involutive.
  now rewrite (@dropwhile_id isspace _ Hz).
Qed.

Section Ends.
Variable ic : bool.

Lemma atom_nonspace_char (a : atom) (ch : ascii) :
  atom_nonspace ic a = true -> atom_match ic a ch = true ->
  isspace ch = false.
Proof.
  intros H M. pose proof (@by_enumeration _ H ch) as B. cbn beta in B.
  rewrite M in B. now apply negb_true_iff in B.
Qed.

Lemma only_eps_lang (r : regex) (u : str) :
  lang ic r u -> only_eps r = true -> u = [].
Proof.
  induction 1 as [|a ch E|r1 r2 u1 u2 _ IH1 _ IH2|r1 r2 u _ IH|r1 r2 u _ IH
                 |a u F|a ch u F|r|r u _ IH|r u _ IH];
    cbn [only_eps]; try discriminate; auto.
  intros H. apply andb_true_iff in H as [H1 H2].
  now rewrite (IH1 H1), (IH2 H2).
Qed.

Lemma first_nonspace_lang (r : regex) (u : str) :
  lang ic r u -> first_nonspace ic r = true ->
  exists c u', u = c :: u' /\ isspace c = false.
Proof.
  induction 1 as [|a ch E|r1 r2 u1 u2 L1 IH1 L2 IH2|r1 r2 u _ IH|r1 r2 u _ IH
                 |a u F|a ch u F|r|r u _ IH|r u _ IH];
    cbn [first_nonspace]; try discriminate; intros H.
  - exists ch, []. split; [reflexivity|]. eapply atom_nonspace_char; eauto.
  - destruct (only_eps r1) eqn:O.
    + rewrite (@only_eps_lang r1 u1 L1 O). now apply IH2.
    + destruct (IH1 H) as (c & u' & -> & Hc). exists c, (u' ++ u2). auto.
  - apply andb_true_iff in H as [H _]. auto.
  - apply andb_true_iff in H as [_ H]. auto.
  - exists ch, u. split; [reflexivity|].
    inversion F; subst. eapply atom_nonspace_char; eauto.
  - auto.
Qed.

Lemma last_nonspace_lang (r : regex) (u : str) :
  lang ic r u -> last_nonspace ic r = true ->
  exists u' c, u = u' ++ [c] /\ isspace c = false.
Proof.
  induction 1 as [|a ch E|r1 r2 u1 u2 L1 IH1 L2 IH2|r1 r2 u _ IH|r1 r2 u _ IH
                 |a u F|a ch u F|r|r u _ IH|r u _ IH];
    cbn [last_nonspace]; try discriminate; intros H.
  - exists [], ch. split; [reflexivity|]. eapply atom_nonspace_char; eauto.
  - destruct (only_eps r2) eqn:O.
    + rewrite (@only_eps_lang r2 u2 L2 O), app_nil_r. now apply IH1.
    + destruct (IH2 H) as (u' & c & -> & Hc). exists (u1 ++ u'), c.
      now rewrite app_assoc.
  - apply andb_true_iff in H as [H _]. auto.
  - apply andb_true_iff in H as [_ H]. auto.
  - destruct (@exists_last _ (ch :: u)) as (u' & c & E); [discriminate|].
    exists u', c. split; [exact E|].
    rewrite E in F. apply Forall_app in F as [_ F].
    inversion F; subst. eapply atom_nonspace_char; eauto.
  - auto.
Qed.
End Ends.

(** A pattern whose matches start and end with characters that are not
    whitespace matches somewhere in a line exactly when it does in the
    trimmed line. *)
Lemma occurs_strip (p : pattern) (line : str) :
  first_nonspace (ignorecase p) (rx p) = true ->
  last_nonspace (ignorecase p) (rx p) = true ->
  occurs_in p (strip line) <-> occurs_in p line.
Proof.
  intros F L. unfold occurs_in. split.
  - intros (b & u & a & E & H).
    destruct (strip_infix line) as (pre & post & E').
    exists (pre ++ b), u, (a ++ post). split; [|exact H].
    rewrite E' at 1. rewrite E, <- !app_assoc. reflexivity.
  - intros (b & u & a & -> & H).
    destruct (@first_nonspace_lang _ _ _ H F) as (c & u1 & -> & Hc).
    destruct (@last_nonspace_lang _ _ _ H L) as (u2 & d & E & Hd).
    destruct (@strip_keeps b a u1 u2 c d Hc Hd E) as (b' & a' & S).
    exists b', (c :: u1), a'. split; [exact S | exact H].
Qed.

Lemma patterns_nonspace :
  forallb
    (fun p => first_nonspace (ignorecase p) (rx p)
              && last_nonspace (ignorecase p) (rx p))
    ERROR_PATTERNS = true.
Proof. vm_compute. reflexivity. Qed.

Lemma is_hit_strip (line : str) : is_hit (strip line) = is_hit line.
Proof.
  assert (E : is_hit (strip line) = true <-> is_hit line = true).
  { rewrite !is_hit_occurs. pose proof patterns_nonspace as N.
    rewrite forallb_forall in N.
    split; intros (p & I & O); exists p; (split; [exact I|]);
      destruct (proj1 (andb_true_iff _ _) (N p I)) as [F L];
      now apply (@occurs_strip p line F L). }
  destruct (is_hit (strip line)), (is_hit line); intuition congruence.
Qed.

(** ** What a hit is *)

Lemma not_break_not_cr (c : ascii) :
  islinebreak c = false -> Ascii.eqb c CR = false.
Proof.
  intros H. destruct (Ascii.eqb c CR) eqn:E; [|reflexivity].
  apply Ascii.eqb_eq in E. subst c. discriminate H.
Qed.

Lemma splitlines_from_no_break (n : nat) :
  forall text : str, length text <= n ->
  forall cur : str,
    Forall (fun c => islinebreak c = false) cur ->
    Forall (Forall (fun c => islinebreak c = false))
      (splitlines_from cur text).
Proof.
  induction n as [|n IH]; intros text Ht cur Hc.
  - destruct text; [|cbn in Ht; lia]. cbn [splitlines_from].
    destruct cur; repeat constructor. now apply Forall_rev.
  - destruct text as [|c text]; cbn [splitlines_from].
    + destruct cur; repeat constructor. now apply Forall_rev.
    + cbn [length] in Ht.
      assert (L : forall rest, length rest <= n ->
                 Forall (Forall (fun c => islinebreak c = false))
                   (rev cur :: splitlines_from [] rest)).
      { intros rest Hr. constructor; [now apply Forall_rev|].
        apply IH; [exact Hr | constructor]. }
      destruct (Ascii.eqb c CR).
      * destruct text as [|d text]; [apply L; cbn; lia|].
        cbn [length] in Ht. destruct (Ascii.eqb d NL); apply L; cbn; lia.
      * destruct (islinebreak c) eqn:B; [apply L; lia|].
        apply IH; [lia|]. constructor; assumption.
Qed.

Lemma splitlines_from_one (x : str) :
  Forall (fun c => islinebreak c = false) x ->
  forall cur : str,
    splitlines_from cur x
    = match rev cur ++ x with
      | [] => []
      | _ :: _ => [rev cur ++ x]
      end.
Proof.
  induction 1 as [|c x Hc F IH]; intros cur; cbn [splitlines_from].
  - rewrite app_nil_r. destruct cur as [|d cur]; [reflexivity|].
    cbn [rev]. destruct (rev cur); reflexivity.
  - rewrite (not_break_not_cr _ Hc), Hc, IH. cbn [rev].
    rewrite <- app_assoc. reflexivity.
Qed.

(** A text without line break, if not empty, is its own single line. *)
Lemma splitlines_one (x : str) :
  x <> [] -> Forall (fun c => islinebreak c = false) x -> splitlines x = [x].
Proof.
  intros N F. unfold splitlines. rewrite (@splitlines_from_one x F []).
  cbn [rev app]. destruct x; [now elim N | reflexivity].
Qed.

(** Every hit of a text is trimmed and not empty, has no line break in it,
    and is still a line in which a pattern is found: scanning it again
    gives it back. *)
Theorem hits_are_clean (log_text h : str) :
  In h (scan_logs log_text) ->
  is_hit h = true
  /\ strip h = h
  /\ h <> []
  /\ Forall (fun c => islinebreak c = false) h
  /\ scan_logs h = [h].
Proof.
  unfold scan_logs at 1. rewrite scan_lines_acc. cbn [app].
  intros I. apply in_map_iff in I as (line & <- & I).
  apply filter_In in I as [I H].
  assert (Hit : is_hit (strip line) = true) by now rewrite is_hit_strip.
  assert (Ne : strip line <> []).
  { intros E. rewrite E in Hit. vm_compute in Hit. discriminate Hit. }
  assert (Nb : Forall (fun c => islinebreak c = false) (strip line)).
  { assert (Nl : Forall (fun c => islinebreak c = false) line).
    { pose proof (@splitlines_from_no_break (length log_text) log_text
                    (le_n _) [] (Forall_nil _)) as S.
      rewrite Forall_forall in S. now apply S. }
    destruct (strip_infix line) as (pre & post & E). rewrite E in Nl.
    apply Forall_app in Nl as [_ Nl]. now apply Forall_app in Nl as [Nl _]. }
  split; [exact Hit|]. split; [apply strip_idempotent|].
  split; [exact Ne|]. split; [exact Nb|].
  unfold scan_logs. rewrite (@splitlines_one (strip line) Ne Nb).
  rewrite scan_lines_acc. cbn [app filter]. rewrite Hit. cbn [map].
  now rewrite strip_idempotent.
Qed.

Lemma hits_are_clean_witness :
  scan_logs (s "upstream connect error") = [s "upstream connect error"].
Proof.
  apply (@hits_are_clean sample_log (s "upstream connect error")).
  vm_compute. right. left. reflexivity.
Defined.

(** ** The lines shown and the lines left out *)

Lemma sorted_app_le (A : Type) (R : A -> A -> Prop) (l1 l2 : list A) :
  StronglySorted R (l1 ++ l2) ->
  forall x y, In x l1 -> In y l2 -> R x y.
Proof.
  induction l1 as [|z l1 IH]; cbn [app]; intros S x y Hx Hy; [destruct Hx|].
  inversion S as [|? ? S' F]; subst. destruct Hx as [->|Hx].
  - rewrite Forall_forall in F. apply F, in_or_app. auto.
  - now apply IH.
Qed.

(** The five lines shown for a container are the most frequent ones: no
    line left out has a greater count than a line shown; and the lines
    shown together with the lines left out are the distinct lines of the
    container. *)
Theorem shown_lines_are_most_frequent (hits : list str)
    (x y : str * nat) :
  Permutation
    (firstn 5 (sorted by_neg_count (count_lines hits []))
     ++ skipn 5 (sorted by_neg_count (count_lines hits [])))
    (count_lines hits [])
  /\ (In x (firstn 5 (sorted by_neg_count (count_lines hits []))) ->
      In y (skipn 5 (sorted by_neg_count (count_lines hits []))) ->
      snd y <= snd x).
Proof.
  split; [rewrite firstn_skipn; apply sorted_perm|].
  assert (S : StronglySorted (fun a b => snd b <= snd a)
                (sorted by_neg_count (count_lines hits []))).
  { eapply StronglySorted_weaken;
      [|apply (sorted_sorted by_neg_count by_neg_count_total
                 by_neg_count_trans)].
    intros a b H. unfold by_neg_count in H. now apply Nat.leb_le. }
  rewrite <- (firstn_skipn 5 (sorted by_neg_count (count_lines hits [])))
    in S.
  intros Hx Hy. exact (@sorted_app_le _ _ _ _ S x y Hx Hy).
Qed.

Lemma shown_lines_are_most_frequent_witness :
  snd (s "NXDOMAIN h", 1) <= snd (s "NXDOMAIN b", 3).
Proof.
  destruct (@shown_lines_are_most_frequent eight_hits
              (s "NXDOMAIN b", 3) (s "NXDOMAIN h", 1)) as [_ H].
  apply H; vm_compute; auto 10.
Defined.

(** ** Runs with findings *)

(** In a run whose pod list was read and in which some container has a hit,
    [findings] is not empty and the standard output is the header line, an
    empty line and the whole report: the line that tells there are no errors
    is not printed.  The status is 0. *)
Theorem findings_are_reported (w : world) (a : arguments)
    (ps : list PodRef) (hits : list str) :
  listed_pods w a = Some ps ->
  In hits (pods_hits w a ps) -> hits <> [] ->
  exists t o,
    collect w a io0 = Ok t o
    /\ fst t <> []
    /\ stdout_text (run w a)
       = text (scanning_line (length ps) a :: report t)
    /\ status (run w a) = 0%Z.
Proof.
  intros L I N.
  exists (pods_tables w a ps ([], [])). eexists.
  split; [apply collect_listed, L|].
  assert (F : fst (pods_tables w a ps ([], [])) <> []).
  { unfold pods_hits in I. apply in_flat_map in I as (p & Ip & I).
    apply in_map_iff in I as (c & E & Ic).
    assert (K : In (key_of (pod_namespace p) (pod_name p) c)
                  (Dict.keys (fst (pods_tables w a ps ([], []))))).
    { apply key_pods_tables. right. exists hits, p, c.
      repeat split; auto. }
    intros Z. rewrite Z in K. exact K. }
  split; [exact F|]. rewrite (run_listed _ _ L).
  cbn [stdout_text status]. split; [|reflexivity].
  destruct (fst (pods_tables w a ps ([], []))); [now elim F | reflexivity].
Qed.

Lemma findings_are_reported_witness :
  exists t o,
    collect noisy_world sample_args io0 = Ok t o
    /\ fst t <> []
    /\ stdout_text (run noisy_world sample_args)
       = text (scanning_line 2 sample_args :: report t)
    /\ status (run noisy_world sample_args) = 0%Z.
Proof.
  apply (@findings_are_reported noisy_world sample_args
           [ Pod (s "api") (s "web") [s "app"; s "slow"; s "down"];
             Pod (s "pg") (s "db") [s "main"] ]
           (scan_logs sample_log)).
  - vm_compute. reflexivity.
  - vm_compute. left. reflexivity.
  - vm_compute. discriminate.
Defined.

(** ** Reporter: the lines it shows *)

Lemma in_count (k : str) (v : nat) (d : dict nat) :
  NoDup (Dict.keys d) -> In (k, v) d -> Dict.count k d = v.
Proof.
  unfold Dict.keys.
  induction d as [|[k0 v0] d IH]; intros N I; [destruct I|].
  cbn [map fst] in N. inversion N as [|? ? Hin Hd]; subst.
  rewrite count_cons. destruct I as [E|I].
  - inversion E; subst. now rewrite str_eqb_refl.
  - destruct (str_eqb k k0) eqn:E; [|auto].
    apply str_eqb_eq in E; subst k0. elim Hin.
    change k with (fst (k, v)). now apply in_map.
Qed.

Lemma in_firstn (A : Type) (n : nat) (l : list A) (x : A) :
  In x (firstn n l) -> In x l.
Proof.
  intros H. rewrite <- (firstn_skipn n l). apply in_or_app. now left.
Qed.

(** Every line of the detail of a container: the key, the notice of the
    lines left out, or a hit line of the container with its number of
    occurrences, cut when it is longer than 120 characters. *)
Lemma detail_block_lines (key : str) (hits : list str) (x : str) :
  In x (detail_block (key, hits)) ->
  x = [NL] ++ s "  " ++ key ++ s ":"
  \/ x = s "    ... and "
          ++ str_of_nat (length (nodup str_eq_dec hits) - 5)
          ++ s " more unique error lines"
  \/ exists l,
       In l hits
       /\ x = (if 1 <? count_occ str_eq_dec hits l
               then s "    [" ++ str_of_nat (count_occ str_eq_dec hits l)
                    ++ s "x] "
               else s "    ")
              ++ (if 120 <? length l then firstn 117 l ++ s "..." else l).
Proof.
  unfold detail_block. cbn [fst snd]. intros H.
  apply in_app_or in H as [[H|[]]|H]; [left; now symmetry|].
  apply in_app_or in H as [H|H].
  - right. right. apply in_map_iff in H as ([l c] & <- & I).
    apply in_firstn in I.
    apply (Permutation_in _ (sorted_perm by_neg_count _)) in I.
    assert (Hl : In l hits).
    { assert (K : In l (Dict.keys (count_lines hits []))).
      { change l with (fst (l, c)). now apply in_map. }
      apply keys_count_lines in K as [K|[]]. exact K. }
    assert (Hc : c = count_occ str_eq_dec hits l).
    { transitivity (Dict.count l (count_lines hits [])).
      - symmetry. apply in_count; [|exact I].
        apply (count_lines_nodup hits []). constructor.
      - now rewrite count_count_lines. }
    exists l. split; [exact Hl|]. subst c. reflexivity.
  - right. left. rewrite count_lines_length in H.
    destruct (5 <? length (nodup str_eq_dec hits)); [|destruct H].
    destruct H as [H|[]]. now symmetry.
Qed.

(** C7.  In the detail report a displayed line is its prefix followed by the
    hit line, cut exactly when the hit line is longer than 120 characters:
    it then keeps its first 117 characters, followed by three dots, 120
    characters in all.  This holds of every line the report shows for a
    container; a hit line of 121 characters is shown as 117 characters and
    the three dots. *)
Theorem truncate_long_lines (line : str) :
  (truncate line <> line <-> 120 < length line)
  /\ (length line <= 120 -> truncate line = line)
  /\ (120 < length line ->
      truncate line = firstn 117 line ++ s "..."
      /\ length (truncate line) = 120)
  /\ (length line = 121 ->
      truncate line = firstn 117 line ++ s "..."
      /\ length (truncate line) = 117 + 3)
  /\ (forall count,
        detail_line (line, count)
        = (if 1 <? count
           then s "    [" ++ str_of_nat count ++ s "x] "
           else s "    ")
          ++ (if 120 <? length line
              then firstn 117 line ++ s "..."
              else line))
  /\ (forall key hits x,
        In x (detail_block (key, hits)) ->
        x = [NL] ++ s "  " ++ key ++ s ":"
        \/ x = s "    ... and "
                ++ str_of_nat (length (nodup str_eq_dec hits) - 5)
                ++ s " more unique error lines"
        \/ exists l,
             In l hits
             /\ x = (if 1 <? count_occ str_eq_dec hits l
                     then s "    ["
                          ++ str_of_nat (count_occ str_eq_dec hits l)
                          ++ s "x] "
                     else s "    ")
                    ++ (if 120 <? length l
                        then firstn 117 l ++ s "..."
                        else l))
  /\ (forall findings all key hits,
        In (key, hits) findings ->
        incl (detail_block (key, hits)) (report (findings, all)))
  /\ (length line = 121 ->
      forall key,
        detail_block (key, [line])
        = [ [NL] ++ s "  " ++ key ++ s ":";
            s "    " ++ firstn 117 line ++ s "..." ]
        /\ length (firstn 117 line ++ s "...") = 120).
Proof.
  assert (Long : 120 < length line ->
                 truncate line = firstn 117 line ++ s "..."
                 /\ length (truncate line) = 120).
  { intros H. unfold truncate.
    destruct (Nat.ltb_spec 120 (length line)) as [_|]; [|lia].
    split; [reflexivity|].
    rewrite length_app, length_firstn. cbn [s list_ascii_of_string length].
    lia. }
  assert (Short : length line <= 120 -> truncate line = line).
  { intros H. unfold truncate.
    destruct (Nat.ltb_spec 120 (length line)); [lia | reflexivity]. }
  split.
  { split.
    - intros H. destruct (Nat.le_gt_cases (length line) 120) as [Hle|];
        [|lia].
      elim H. auto.
    - intros H E. destruct (Long H) as [_ L]. rewrite E in L. lia. }
  split; [exact Short|]. split; [exact Long|].
  split.
  { intros H. destruct (Long ltac:(lia)) as [E L]. split; [exact E|].
    rewrite L. reflexivity. }
  split; [intros count; reflexivity|].
  split; [apply detail_block_lines|].
  split.
  { intros findings all key hits I x Hx. unfold report. cbn [fst snd].
    apply in_or_app. right. apply in_or_app. right. apply in_or_app. right.
    apply in_flat_map. exists (key, hits). split; [|exact Hx].
    apply (Permutation_in _ (Permutation_sym (sorted_perm by_key findings))).
    exact I. }
  intros H key. destruct (Long ltac:(lia)) as [E L].
  split; [|now rewrite <- E].
  unfold detail_block, detail_line.
  cbn [fst snd count_lines Dict.add sorted fold_right insert firstn map
       length Nat.ltb Nat.leb app].
  now rewrite E.
Qed.

Lemma truncate_long_lines_witness :
  detail_block (s "web/api/app", [repeat "a"%char 121])
  = [ [NL] ++ s "  web/api/app:";
      s "    " ++ repeat "a"%char 117 ++ s "..." ]
  /\ truncate (repeat "a"%char 120) = repeat "a"%char 120.
Proof.
  split.
  - destruct (truncate_long_lines (repeat "a"%char 121))
      as (_ & _ & _ & _ & _ & _ & _ & H).
    destruct (H eq_refl (s "web/api/app")) as [B _].
    etransitivity; [exact B | reflexivity].
  - apply (proj1 (proj2 (truncate_long_lines (repeat "a"%char 120)))).
    rewrite repeat_length. lia.
Defined.

(** A line of the detail of a container is its prefix, four spaces or four
    spaces and the count between brackets, followed by at most 120
    characters: a line that occurs once is at most 124 characters long.  The
    first 117 characters of the hit line are always kept, and a line that
    was cut is shown as it is when it comes again. *)
Theorem displayed_line_bound (line : str) (count : nat) :
  length (detail_line (line, count))
  <= length (detail_line ([], count)) + 120
  /\ (count <= 1 -> length (detail_line (line, count)) <= 124)
  /\ firstn 117
       (skipn (length (detail_line ([], count))) (detail_line (line, count)))
     = firstn 117 line
  /\ detail_line (truncate line, count) = detail_line (line, count).
Proof.
  assert (B : length (truncate line) <= 120).
  { unfold truncate. destruct (Nat.ltb_spec 120 (length line)); [|lia].
    rewrite length_app, length_firstn. cbn [s list_ascii_of_string length].
    lia. }
  assert (I : truncate (truncate line) = truncate line).
  { unfold truncate at 1.
    destruct (Nat.ltb_spec 120 (length (truncate line)));
      [lia | reflexivity]. }
  assert (K : firstn 117 (truncate line) = firstn 117 line).
  { unfold truncate. destruct (Nat.ltb_spec 120 (length line)) as [H|H];
      [|reflexivity].
    rewrite firstn_app, firstn_firstn, length_firstn.
    replace (117 - Nat.min 117 (length line)) with 0 by lia.
    cbn [firstn]. now rewrite app_nil_r. }
  unfold detail_line. cbn [fst snd].
  set (prefix := if 1 <? count
                 then s "    [" ++ str_of_nat count ++ s "x] "
                 else s "    ").
  change (truncate []) with (@nil ascii). rewrite app_nil_r.
  split; [rewrite length_app; lia|]. split.
  - intros H. unfold prefix.
    destruct (Nat.ltb_spec 1 count); [lia|].
    rewrite length_app. cbn [s list_ascii_of_string length]. lia.
  - split; [|now rewrite I].
    rewrite skipn_app, skipn_all, Nat.sub_diag. cbn [skipn app]. exact K.
Qed.

Lemma displayed_line_bound_witness :
  length (detail_line (repeat "a"%char 309, 1)) <= 124.
Proof.
  destruct (displayed_line_bound (repeat "a"%char 309) 1) as (_ & H & _).
  apply H. lia.
Defined.

(* ================================================================= *)
(** * The script from its command line *)

(** The program with its parameters is the program above. *)
Lemma main_with_world (w : world) (a : arguments) (o : io) :
  main_with (subprocess_run w) (json_loads w) a o = main w a o.
Proof.
  assert (C : forall n ns cs t o,
             scan_containers_with (subprocess_run w) a n ns cs t o
             = scan_containers w a n ns cs t o).
  { intros n ns cs. induction cs as [|c cs IH]; intros t o'; [reflexivity|].
    cbn [scan_containers_with scan_containers]. unfold bind.
    change (scan_container_with (subprocess_run w) a n ns c t o')
      with (scan_container w a n ns c t o').
    destruct (scan_container w a n ns c t o'); auto. }
  assert (P : forall pods t o,
             scan_pods_with (subprocess_run w) a pods t o
             = scan_pods w a pods t o).
  { induction pods as [|pod pods IH]; intros t o'; [reflexivity|].
    cbn [scan_pods_with scan_pods]. unfold bind.
    assert (E : scan_pod_with (subprocess_run w) a pod t o'
                = scan_pod w a pod t o').
    { unfold scan_pod_with, scan_pod, bind.
      destruct (lift (metadata pod (s "name")) o'); [|reflexivity].
      destruct (lift (metadata pod (s "namespace")) o0); [|reflexivity].
      destruct (lift (container_names pod) o1); [|reflexivity].
      apply C. }
    rewrite E. destruct (scan_pod w a pod t o'); auto. }
  unfold main_with, main, collect_with, collect, bind.
  change (get_pods_with (subprocess_run w) (json_loads w) (namespace a) o)
    with (get_pods w (namespace a) o).
  destruct (get_pods w (namespace a) o) as [pods o0|]; [|reflexivity].
  destruct (lift (py_len pods) o0) as [n o1|]; [|reflexivity].
  destruct (print (scanning_line n a) o1) as [u o2|]; [|reflexivity].
  destruct (lift (py_iter pods) o2) as [items o3|]; [|reflexivity].
  now rewrite P.
Qed.

(** ** Arguments without NUL *)

Lemma has_nul_app (x y : str) : has_nul (x ++ y) = has_nul x || has_nul y.
Proof. unfold has_nul. apply existsb_app. Qed.

Lemma has_nul_uint (d : Decimal.uint) :
  has_nul (list_ascii_of_string (NilEmpty.string_of_uint d)) = false.
Proof. induction d; cbn; auto. Qed.

Lemma has_nul_str_of_Z (z : Z) : has_nul (str_of_Z z) = false.
Proof.
  unfold str_of_Z, s, NilZero.string_of_int, NilZero.string_of_uint.
  destruct (Z.to_int z) as [d|d]; destruct d; cbn; auto using has_nul_uint.
Qed.

Lemma cmd_args_host_strs (argv : list str) :
  forallb (fun x => negb (has_nul x)) argv = true ->
  cmd_args_host (map JStr argv) = Returns argv.
Proof.
  induction argv as [|x argv IH]; cbn [forallb map cmd_args_host];
    [reflexivity|].
  intros H. apply andb_true_iff in H as [Hx H].
  apply negb_true_iff in Hx. now rewrite Hx, IH.
Qed.

Lemma cmd_args_strs (argv : list str) :
  cmd_args (map JStr argv) = Returns argv.
Proof.
  induction argv as [|x argv IH]; cbn [map cmd_args]; [reflexivity|].
  now rewrite IH.
Qed.

(** On a host where every command starts and writes text, a command whose
    arguments hold no NUL does what it does in the world of that host. *)
Lemma subprocess_run_host_text (h : host) (argv : list str)
    (timeout : option nat) :
  text_host h ->
  forallb (fun x => negb (has_nul x)) argv = true ->
  subprocess_run_host h (map JStr argv) timeout
  = subprocess_run (world_of h) (map JStr argv) timeout.
Proof.
  intros T C. unfold subprocess_run_host, subprocess_run.
  rewrite (cmd_args_host_strs _ C), cmd_args_strs.
  unfold world_of. cbn [run_process].
  destruct (T argv) as [p ->].
  destruct timeout as [t|]; [|reflexivity].
  destruct (t <? elapsed p); reflexivity.
Qed.

Lemma get_logs_argv_clean (a : arguments) (n ns c : str) :
  has_nul (since a) = false ->
  has_nul n = false -> has_nul ns = false -> has_nul c = false ->
  forallb (fun x => negb (has_nul x)) (get_logs_argv a n ns c) = true.
Proof.
  intros Hs Hn Hns Hc. unfold get_logs_argv. cbn [forallb].
  rewrite !has_nul_app, Hs, Hn, Hns, Hc, has_nul_str_of_Z. reflexivity.
Qed.

Lemma get_pods_argv_clean (a : arguments) :
  args_clean a ->
  forallb (fun x => negb (has_nul x)) (get_pods_argv (namespace a)) = true.
Proof.
  intros [_ N]. unfold get_pods_argv, truthy.
  destruct (namespace a) as [[|c ns]|]; cbn [app forallb]; try reflexivity.
  now rewrite N.
Qed.

Lemma get_pods_cmd_argv (namespace : option str) :
  get_pods_cmd namespace = map JStr (get_pods_argv namespace).
Proof.
  unfold get_pods_cmd, get_pods_argv. rewrite map_app.
  destruct (truthy namespace); reflexivity.
Qed.

(** ** A well-formed pod list is read and scanned to the end *)

Lemma field_ok_lookup (k : str) (o : list (str * json)) :
  field_ok k o = true ->
  exists x, lookup k o = Some (JStr x) /\ has_nul x = false.
Proof.
  unfold field_ok, name_ok. destruct (lookup k o) as [[| | |x| |]|];
    try discriminate.
  intros H. exists x. split; [reflexivity|]. now apply negb_true_iff.
Qed.

Lemma containers_ok_names (cs : list json) :
  forallb container_ok cs = true ->
  exists names,
    names_of cs = Returns (map JStr names)
    /\ forallb (fun x => negb (has_nul x)) names = true.
Proof.
  induction cs as [|c cs IH]; cbn [forallb names_of].
  - exists []. auto.
  - intros H. apply andb_true_iff in H as [Hc H].
    destruct (IH H) as (names & E & C).
    destruct c as [| | | | |o]; try discriminate.
    destruct (field_ok_lookup _ _ Hc) as (x & L & N).
    exists (x :: names). unfold getitem. rewrite L, E. cbn [map forallb].
    now rewrite N, C.
Qed.

Lemma pod_ok_fields (pod : json) :
  pod_ok pod = true ->
  exists n ns cs,
    metadata pod (s "name") = Returns (JStr n)
    /\ metadata pod (s "namespace") = Returns (JStr ns)
    /\ container_names pod = Returns (map JStr cs)
    /\ has_nul n = false /\ has_nul ns = false
    /\ forallb (fun x => negb (has_nul x)) cs = true.
Proof.
  destruct pod as [| | | | |o]; try discriminate. cbn [pod_ok].
  destruct (lookup (s "metadata") o) as [[| | | | |m]|] eqn:M;
    try discriminate.
  intros H. apply andb_true_iff in H as [H S].
  apply andb_true_iff in H as [Hn Hns].
  destruct (field_ok_lookup _ _ Hn) as (n & Ln & Nn).
  destruct (field_ok_lookup _ _ Hns) as (ns & Lns & Nns).
  assert (C : exists cs,
             container_names (JObj o) = Returns (map JStr cs)
             /\ forallb (fun x => negb (has_nul x)) cs = true).
  { unfold container_names, get_method. unfold spec_ok in S.
    destruct (lookup (s "spec") o) as [[| | | | |sp]|]; try discriminate.
    - destruct (lookup (s "containers") sp) as [[| | | |cs|]|];
        try discriminate.
      + cbn [py_iter]. now apply containers_ok_names.
      + exists []. auto.
    - exists []. auto. }
  destruct C as (cs & C & Cc).
  exists n, ns, cs. unfold metadata, getitem. rewrite M, Ln, Lns.
  repeat split; assumption.
Qed.

Lemma pods_ok_read (pods : list json) :
  forallb pod_ok pods = true -> exists ps, read_pods pods = Some ps.
Proof.
  induction pods as [|pod pods IH]; cbn [forallb read_pods];
    [exists []; reflexivity|].
  intros H. apply andb_true_iff in H as [Hp H].
  destruct (IH H) as [ps ->].
  destruct (pod_ok_fields _ Hp) as (n & ns & cs & Mn & Mns & C & _ & _ & _).
  unfold read_pod. rewrite Mn, Mns, C.
  destruct (map JStr cs) as [|c l] eqn:E; [eauto|].
  cbn [is_str andb]. rewrite <- E.
  assert (F : forallb is_str (map JStr cs) = true).
  { clear. induction cs; cbn; auto. }
  rewrite F. eauto.
Qed.

Section OnTextHost.
Variable h : host.
Variable a : arguments.
Hypothesis host_text : text_host h.
Hypothesis since_clean : has_nul (since a) = false.

Lemma scan_containers_on_host (n ns : str) (cs : list str) :
  has_nul n = false -> has_nul ns = false ->
  forallb (fun x => negb (has_nul x)) cs = true ->
  forall t o,
    scan_containers_with (subprocess_run_host h) a (JStr n) (JStr ns)
      (map JStr cs) t o
    = scan_containers (world_of h) a (JStr n) (JStr ns) (map JStr cs) t o.
Proof.
  intros Hn Hns. induction cs as [|c cs IH]; intros C t o; [reflexivity|].
  cbn [forallb] in C. apply andb_true_iff in C as [Hc C].
  apply negb_true_iff in Hc.
  cbn [map scan_containers_with scan_containers]. unfold bind.
  assert (E : scan_container_with (subprocess_run_host h) a
                (JStr n) (JStr ns) (JStr c) t o
              = scan_container (world_of h) a (JStr n) (JStr ns) (JStr c)
                  t o).
  { unfold scan_container_with, scan_container, get_logs_with, get_logs.
    change (get_logs_cmd (JStr n) (JStr ns) (JStr c) (since a) (tail a))
      with (map JStr (get_logs_argv a n ns c)).
    now rewrite (@subprocess_run_host_text h _ (Some 30) host_text
                   (@get_logs_argv_clean a n ns c since_clean Hn Hns Hc)). }
  rewrite E.
  destruct (scan_container (world_of h) a (JStr n) (JStr ns) (JStr c) t o);
    auto.
Qed.

Lemma scan_pods_on_host (pods : list json) :
  forallb pod_ok pods = true ->
  forall t o,
    scan_pods_with (subprocess_run_host h) a pods t o
    = scan_pods (world_of h) a pods t o.
Proof.
  induction pods as [|pod pods IH]; intros H t o; [reflexivity|].
  cbn [forallb] in H. apply andb_true_iff in H as [Hp H].
  cbn [scan_pods_with scan_pods]. unfold bind.
  assert (E : scan_pod_with (subprocess_run_host h) a pod t o
              = scan_pod (world_of h) a pod t o).
  { destruct (pod_ok_fields _ Hp)
      as (n & ns & cs & Mn & Mns & C & Hn & Hns & Hc).
    unfold scan_pod_with, scan_pod, bind, lift. rewrite Mn, Mns, C.
    unfold ret. now apply scan_containers_on_host. }
  rewrite E. destruct (scan_pod (world_of h) a pod t o); auto.
Qed.
End OnTextHost.

(** ** The exit status *)

Lemma cmd_args_host_cases (argv : list str) :
  cmd_args_host (map JStr argv) = Returns argv
  \/ cmd_args_host (map JStr argv) = Raises ValueError.
Proof.
  induction argv as [|x argv IH]; cbn [map cmd_args_host]; [auto|].
  destruct (has_nul x); [auto|].
  destruct IH as [-> | ->]; auto.
Qed.

Lemma script_listing_bad (h : host) (a : arguments) :
  listing_fails h a \/ listing_not_json h a ->
  exit_status (main_with (subprocess_run_host h) (loads_of h) a io0) = 1%Z.
Proof.
  unfold listing_fails, listing_not_json, main_with, collect_with,
    get_pods_with, bind, lift, subprocess_run_host.
  rewrite get_pods_cmd_argv.
  destruct (cmd_args_host_cases (get_pods_argv (namespace a))) as [-> | ->];
    [|reflexivity].
  destruct (launch_of h (get_pods_argv (namespace a))) as [|p is_text];
    [reflexivity|].
  destruct is_text; [|reflexivity]. unfold ret.
  destruct (Z.eqb_spec (returncode p) 0) as [E|E]; [|reflexivity].
  cbn [negb]. destruct (loads_of h (stdout p)); [|reflexivity].
  intros [[H|H]|H]; [discriminate H | contradiction | discriminate H].
Qed.

Lemma script_listing_good (h : host) (a : arguments) :
  args_clean a -> text_host h -> listing_well_formed h a ->
  exit_status (main_with (subprocess_run_host h) (loads_of h) a io0) = 0%Z.
Proof.
  intros A T W. unfold listing_well_formed in W.
  unfold main_with, collect_with, get_pods_with, bind, lift,
    subprocess_run_host.
  rewrite get_pods_cmd_argv, (cmd_args_host_strs _ (get_pods_argv_clean A)).
  destruct (launch_of h (get_pods_argv (namespace a))) as [|p [|]];
    try contradiction.
  destruct W as (E & j & L & F). unfold ret. rewrite E, L. cbn [Z.eqb negb].
  destruct j as [| | | | |o]; try discriminate F. cbn [well_formed] in F.
  unfold getitem.
  destruct (lookup (s "items") o) as [[| | | |pods|]|]; try discriminate F.
  cbn [py_len py_iter]. unfold print.
  rewrite (@scan_pods_on_host h a T (proj1 A) pods F).
  destruct (@pods_ok_read pods F) as [ps R].
  rewrite (scan_pods_read (world_of h) a pods _ _ R), render_out.
  reflexivity.
Qed.

(** C9, as the code behaves.  The status is the one [argparse] leaves with
    when it does not return the arguments (2 for a rejected command line).
    With the arguments parsed, the status is 1 when the pod list command
    fails (it cannot be started, returns a nonzero code, or writes what is
    not text) and when its output is not JSON; it is 0 when the arguments
    hold no NUL, every command starts and writes text, and the pod list is
    well formed, whatever the fetches take and whatever is found. *)
Theorem exit_status_of_script (h : host) (argv : list str) :
  (forall n,
      parse_args h argv = ParserExit n -> status (run_script h argv) = n)
  /\ (forall a,
         parse_args h argv = Parsed a ->
         (listing_fails h a \/ listing_not_json h a ->
          status (run_script h argv) = 1%Z)
         /\ (args_clean a -> text_host h -> listing_well_formed h a ->
             status (run_script h argv) = 0%Z)).
Proof.
  unfold run_script, script. cbn [status]. split.
  - intros n P. rewrite P. reflexivity.
  - intros a P. rewrite P. split.
    + apply script_listing_bad.
    + apply script_listing_good.
Qed.

Lemma listed_host_text (parse : list str -> parsed) :
  text_host (listed_host parse true).
Proof.
  intros argv. unfold listed_host. cbn [launch_of].
  destruct (str_eqb (nth 1 argv []) (s "get")); eexists; reflexivity.
Qed.

Lemma listed_host_listing (parse : list str -> parsed) (b : bool)
    (a : arguments) :
  listing_well_formed (listed_host parse b) a
  /\ ~ (listing_fails (listed_host parse b) a
        \/ listing_not_json (listed_host parse b) a).
Proof.
  unfold listing_well_formed, listing_fails, listing_not_json, listed_host,
    get_pods_argv.
  cbn [launch_of loads_of app nth]. rewrite str_eqb_refl.
  cbn [returncode stdout]. split.
  - split; [reflexivity|]. eexists. split; [reflexivity|].
    vm_compute. reflexivity.
  - intros [[H|H]|H]; [discriminate H | now apply H | discriminate H].
Qed.

Lemma exit_status_of_script_witness :
  status (run_script flag_host [s "--tail"; s "abc"]) = 2%Z
  /\ status (run_script plain_host []) = 0%Z
  /\ status (run_script
               (Host (fun _ => Parsed sample_args) (fun _ => NotStarted)
                  (fun _ => None))
               []) = 1%Z.
Proof.
  split; [|split].
  - apply (proj1 (exit_status_of_script flag_host [s "--tail"; s "abc"])).
    reflexivity.
  - destruct (proj2 (exit_status_of_script plain_host []) sample_args
                eq_refl) as [_ H].
    apply H.
    + split; [reflexivity | exact I].
    + apply listed_host_text.
    + apply listed_host_listing.
  - destruct (proj2 (exit_status_of_script
                       (Host (fun _ => Parsed sample_args)
                          (fun _ => NotStarted) (fun _ => None)) [])
                sample_args eq_refl) as [H _].
    apply H. left. exact I.
Defined.

(** C9 as stated fails.  A command line that [argparse] rejects ends the
    run with status 2 before any pod is listed; and with the pod list read
    and well formed, a container whose log is not text ends it with status
    1.  In neither run did the pod list command fail or return output that
    cannot be parsed. *)
Lemma exit_status_not_only_listing :
  (status (run_script flag_host [s "--tail"; s "abc"]) = 2%Z
   /\ forall a,
        listing_well_formed flag_host a
        /\ ~ (listing_fails flag_host a \/ listing_not_json flag_host a))
  /\ (parse_args binary_host [] = Parsed sample_args
      /\ listing_well_formed binary_host sample_args
      /\ status (run_script binary_host []) = 1%Z
      /\ ~ (status (run_script binary_host []) <> 0%Z
            <-> listing_fails binary_host sample_args
                \/ listing_not_json binary_host sample_args)).
Proof.
  split.
  - split; [reflexivity|]. intros a. apply listed_host_listing.
  - split; [reflexivity|].
    destruct (listed_host_listing (fun _ => Parsed sample_args) false
                sample_args) as [W N].
    split; [exact W|].
    assert (S : status (run_script binary_host []) = 1%Z)
      by (vm_compute; reflexivity).
    split; [exact S|].
    intros [H _]. apply N, H. rewrite S. discriminate.
Qed.
